(** * Chunking and similarity search: a shallow embedding of
      [pdf_utils.py] and [embedding_utils.py]

    The Python functions are transcribed as Rocq functions:
    - a [str] is the list of its Unicode code points, so that [len], indexing
      and slicing count characters the way Python does (the delimiters
      U+3002 and U+3001 are one character each);
    - Python integers are [Z]; slice and [rfind] bounds are normalised the way
      CPython does it (negative bounds count from the end, bounds are clipped);
    - the [while] loop of [chunk_text] takes a fuel argument that counts the
      evaluations of its condition; [None] means the fuel ran out;
    - Python [float]s and the entries of the numpy vectors are IEEE 754
      binary64 numbers ([PrimFloat]);
    - an exception is the [Raises] outcome. *)

From Stdlib Require Import String.
From Stdlib Require Import ZArith NArith List Bool Lia Permutation Sorted.
From Stdlib Require Import Floats.
Import ListNotations.

Set Implicit Arguments.
Local Open Scope Z_scope.

(** ** Python values *)

Module Py.

(** A character is its code point. *)
Definition char := N.
Definition str := list char.

Definition len {A} (l : list A) : Z := Z.of_nat (length l).

(** CPython's normalisation of one slice bound against a length [n]. *)
Definition adjust (n i : Z) : Z :=
  if i <? 0 then Z.max 0 (i + n) else Z.min i n.

(** [l[lo:hi]] *)
Definition slice {A} (l : list A) (lo hi : Z) : list A :=
  let lo' := adjust (len l) lo in
  let hi' := adjust (len l) hi in
  firstn (Z.to_nat (hi' - lo')) (skipn (Z.to_nat lo') l).

(** [l[lo:]] *)
Definition slice_from {A} (l : list A) (lo : Z) : list A :=
  skipn (Z.to_nat (adjust (len l) lo)) l.

(** [l[p]] for a position counted from the front. *)
Definition char_at (text : str) (p : Z) : option char :=
  if p <? 0 then None else nth_error text (Z.to_nat p).

(** Scan for the highest position [i + k] in [[lo, hi)] holding [d]; [l] is
    the text from position [i] on. *)
Fixpoint rfind_aux (l : str) (i : Z) (d : char) (lo hi : Z) : Z :=
  match l with
  | [] => -1
  | c :: l' =>
      let r := rfind_aux l' (i + 1) d lo hi in
      if 0 <=? r then r
      else if (lo <=? i) && (i <? hi) && (c =? d)%N then i else -1
  end.

(** [text.rfind(d, start, end)] for a one-character [d]. *)
Definition rfind (text : str) (d : char) (start end_ : Z) : Z :=
  rfind_aux text 0 d (adjust (len text) start) (adjust (len text) end_).

(** [str.isspace] on one character (CPython's [_PyUnicode_IsWhitespace]). *)
Definition isspace (c : char) : bool :=
  ((9 <=? c) && (c <=? 13) || (28 <=? c) && (c <=? 32)
   || (c =? 133) || (c =? 160) || (c =? 5760)
   || (8192 <=? c) && (c <=? 8202)
   || (c =? 8232) || (c =? 8233) || (c =? 8239) || (c =? 8287)
   || (c =? 12288))%N.

Fixpoint lstrip (s : str) : str :=
  match s with
  | c :: s' => if isspace c then lstrip s' else s
  | [] => []
  end.

(** [s.strip()] *)
Definition strip (s : str) : str := rev (lstrip (rev (lstrip s))).

(** What a call does: it returns, or it raises. *)
Inductive exn : Type :=
  | ValueError
  | Exception (msg : string).

Inductive outcome (A : Type) : Type :=
  | Returns (a : A)
  | Raises (e : exn).
Arguments Raises {A} e.

Definition bind {A B} (m : outcome A) (k : A -> outcome B) : outcome B :=
  match m with
  | Returns a => k a
  | Raises e => Raises e
  end.

End Py.

Notation "x <- m ;; k" := (Py.bind m (fun x => k))
  (at level 61, m at next level, right associativity).

(** ** pdf_utils.py *)

Module PdfUtils.
Import Py.

(** The delimiters of [chunk_text], in the order of its [for] loop:
    ideographic full stop, newline, ideographic comma, space. *)
Definition delimiters : list char := [12290; 10; 12289; 32]%N.

(** The [for delimiter in ...] loop of [chunk_text]; [split_pos] starts as
    [end_] and the first delimiter whose [rfind] lies after [start] sets it. *)
Fixpoint split_loop (ds : list char) (text : str) (start end_ : Z) : Z :=
  match ds with
  | [] => end_
  | delimiter :: ds' =>
      let pos := rfind text delimiter start end_ in
      if pos >? start then pos + 1
      else split_loop ds' text start end_
  end.

Definition find_split (text : str) (start end_ : Z) : Z :=
  split_loop delimiters text start end_.

(** Line 88: the next value of [start]. *)
Definition next_start (start split_pos overlap : Z) : Z :=
  if split_pos - overlap >? start then split_pos - overlap else split_pos.

(** The [while start < len(text)] loop, with [chunks] the list built so far. *)
Fixpoint chunk_loop (fuel : nat) (text : str) (max_chars overlap : Z)
    (start : Z) (chunks : list str) : option (list str) :=
  match fuel with
  | O => None
  | S fuel' =>
      if start <? len text then
        let end_ := start + max_chars in
        if end_ >=? len text then Some (chunks ++ [slice_from text start])
        else
          let split_pos := find_split text start end_ in
          chunk_loop fuel' text max_chars overlap
            (next_start start split_pos overlap)
            (chunks ++ [slice text start split_pos])
      else Some chunks
  end.

Definition chunk_text (fuel : nat) (text : str) (max_chars overlap : Z)
    : option (list str) :=
  if len text <=? max_chars then Some [text]
  else chunk_loop fuel text max_chars overlap 0 [].

(** A chunk record: the dict built by [process_pdf]. *)
Record Chunk (V : Type) : Type := mkChunk {
  pdf_name : string;
  page_number : Z;
  text : str;
  embedding : option V
}.

(** An entry of [pages_data]. *)
Record Page : Type := mkPage {
  pg_number : Z;
  pg_text : str
}.

(** [extract_text_from_pdf], given what pdfplumber's [extract_text] returned
    for each page in order ([None] when a page has no text layer). *)
Fixpoint extract_pages (page_num : Z) (raw : list (option str)) : list Page :=
  match raw with
  | [] => []
  | t :: raw' =>
      let rest := extract_pages (page_num + 1) raw' in
      match t with
      | Some text =>
          match text, strip text with
          | _ :: _, _ :: _ => mkPage page_num (strip text) :: rest
          | _, _ => rest
          end
      | None => rest
      end
  end.

Definition extract_text_from_pdf (raw : list (option str)) : list Page :=
  extract_pages 1 raw.

(** The default [overlap] of [chunk_text], which [process_pdf] relies on. *)
Definition default_overlap : Z := 100.

(** The loop over [pages_data] of [process_pdf]; [None] when a call of
    [chunk_text] runs out of fuel. *)
Fixpoint process_pages (V : Type) (fuel : nat) (pdf : string)
    (max_chunk_chars : Z) (pages_data : list Page)
    (all_chunks : list (Chunk V)) : option (list (Chunk V)) :=
  match pages_data with
  | [] => Some all_chunks
  | page_info :: rest =>
      match chunk_text fuel (pg_text page_info) max_chunk_chars default_overlap with
      | None => None
      | Some text_chunks =>
          process_pages fuel pdf max_chunk_chars rest
            (all_chunks ++
             map (fun c => mkChunk pdf (pg_number page_info) c (@None V))
                 text_chunks)
      end
  end.

Definition process_pdf (V : Type) (fuel : nat) (raw : list (option str))
    (pdf : string) (max_chunk_chars : Z) : option (outcome (list (Chunk V))) :=
  let pages_data := extract_text_from_pdf raw in
  match pages_data with
  | [] => Some (Raises (Exception (pdf ++ " からテキストを抽出できませんでした。")))
  | _ :: _ =>
      match process_pages fuel pdf max_chunk_chars pages_data [] with
      | None => None
      | Some all_chunks => Some (Returns all_chunks)
      end
  end.

End PdfUtils.

(** ** embedding_utils.py *)

Module EmbeddingUtils.
Import Py.
Local Open Scope float_scope.

(** A one-dimensional numpy array of doubles. *)
Definition vector := list float.

(** The sum of the products of paired entries, accumulated from the left.
    numpy leaves the order of accumulation to its BLAS; what is proved below
    about it uses only that the sum is a function of the list of products. *)
Definition sum_products (a b : vector) : float :=
  fold_left PrimFloat.add (map (fun p => fst p * snd p) (combine a b)) 0.

(** [np.dot] on one-dimensional arrays: shapes that differ raise. *)
Definition np_dot (a b : vector) : outcome float :=
  if Nat.eqb (length a) (length b) then Returns (sum_products a b)
  else Raises ValueError.

(** [np.linalg.norm] on a one-dimensional real array is [sqrt(x.dot(x))]. *)
Definition np_linalg_norm (a : vector) : float :=
  PrimFloat.sqrt (sum_products a a).

Definition calculate_cosine_similarity (vec1 vec2 : vector) : outcome float :=
  let norm1 := np_linalg_norm vec1 in
  let norm2 := np_linalg_norm vec2 in
  if (norm1 =? 0) || (norm2 =? 0) then Returns 0
  else
    d <- np_dot vec1 vec2 ;;
    Returns (d / (norm1 * norm2)).

Definition chunk := PdfUtils.Chunk vector.

(** A search result: the dict built in the loop of [search_similar_chunks]. *)
Record Result : Type := mkResult {
  res_pdf_name : string;
  res_page_number : Z;
  res_text : str;
  similarity : float
}.

(** [results.sort(key=lambda x: x["similarity"], reverse=True)]: Python's sort
    is stable and stays so under [reverse=True]; it compares keys with [<].
    Inserting from the right, an element moves behind exactly the elements
    whose key is strictly greater. *)
Fixpoint insert_desc (x : Result) (sorted : list Result) : list Result :=
  match sorted with
  | [] => [x]
  | y :: sorted' =>
      if similarity x <? similarity y then y :: insert_desc x sorted'
      else x :: sorted
  end.

Definition sort_desc (results : list Result) : list Result :=
  fold_right insert_desc [] results.

(** The [for chunk in chunks] loop, with [results] the list built so far. *)
Fixpoint scan_chunks (query_embedding : vector) (threshold : float)
    (chunks : list chunk) (results : list Result) : outcome (list Result) :=
  match chunks with
  | [] => Returns results
  | c :: rest =>
      match PdfUtils.embedding c with
      | None => scan_chunks query_embedding threshold rest results
      | Some e =>
          sim <- calculate_cosine_similarity query_embedding e ;;
          if threshold <=? sim then
            scan_chunks query_embedding threshold rest
              (results ++ [mkResult (PdfUtils.pdf_name c) (PdfUtils.page_number c)
                                    (PdfUtils.text c) sim])
          else scan_chunks query_embedding threshold rest results
      end
  end.

Section Search.

(** The embedding model, which the repository loads from a package. *)
Variable create_embedding : str -> vector.

Definition search_similar_chunks (query : str) (chunks : list chunk)
    (top_k : Z) (threshold : float) : outcome (list Result) :=
  let query_embedding := create_embedding query in
  results <- scan_chunks query_embedding threshold chunks [] ;;
  Returns (slice (sort_desc results) 0 top_k).

End Search.

Section AddEmbeddings.

(** [create_embeddings_batch]: the embedding model on a list of texts. It
    returns the rows of the array that [encode] gives, or raises. *)
Variable create_embeddings_batch : list str -> outcome (list vector).

(** The loop [for chunk, embedding in zip(chunks, embeddings)]: a chunk that
    [zip] pairs with a vector gets it under ["embedding"]; the chunks after
    the last vector stay as they are. *)
Fixpoint set_embeddings (chunks : list chunk) (embeddings : list vector)
    : list chunk :=
  match chunks, embeddings with
  | c :: chunks', embedding :: embeddings' =>
      PdfUtils.mkChunk (PdfUtils.pdf_name c) (PdfUtils.page_number c)
                       (PdfUtils.text c) (Some embedding)
      :: set_embeddings chunks' embeddings'
  | _, _ => chunks
  end.

(** The chunk dicts are updated in place and the same list is returned; the
    returned value is the list as it is after the call. *)
Definition add_embeddings_to_chunks (chunks : list chunk)
    : outcome (list chunk) :=
  let texts := map (@PdfUtils.text vector) chunks in
  embeddings <- create_embeddings_batch texts ;;
  Returns (set_embeddings chunks embeddings).

End AddEmbeddings.

End EmbeddingUtils.

(** ** embedding_utils.py: the model and its cache *)

Module ModelCache.
Import Py.

Section Model.

(** The sentence-transformers package: the class, its constructor from a
    model name, and [encode] on one text and on a list of texts. *)
Variable SentenceTransformer : Type.
Variable load : string -> SentenceTransformer.
Variable encode : SentenceTransformer -> str -> EmbeddingUtils.vector.
Variable encode_batch :
  SentenceTransformer -> list str -> list EmbeddingUtils.vector.

Definition MODEL_NAME : string := "paraphrase-multilingual-MiniLM-L12-v2".

(** The module's global [_model_cache] and what has been printed. *)
Record World : Type := mkWorld {
  _model_cache : option SentenceTransformer;
  stdout : list string
}.

Definition print (line : string) (w : World) : World :=
  mkWorld (_model_cache w) (stdout w ++ [line]).

Definition loading_message : string :=
  "埋め込みモデル '" ++ MODEL_NAME ++ "' を読み込み中...".

Definition loaded_message : string := "モデルの読み込みが完了しました。".

Definition get_embedding_model (w : World) : SentenceTransformer * World :=
  match _model_cache w with
  | None =>
      let w1 := print loading_message w in
      let w2 := mkWorld (Some (load MODEL_NAME)) (stdout w1) in
      let w3 := print loaded_message w2 in
      (load MODEL_NAME, w3)
  | Some model => (model, w)
  end.

Definition create_embedding (text : str) (w : World)
    : EmbeddingUtils.vector * World :=
  let (model, w') := get_embedding_model w in
  (encode model text, w').

Definition create_embeddings_batch (texts : list str) (w : World)
    : list EmbeddingUtils.vector * World :=
  let (model, w') := get_embedding_model w in
  (encode_batch model texts, w').

(** A call of one of the three functions. *)
Inductive call : Type :=
  | GetModel
  | Embed (text : str)
  | EmbedBatch (texts : list str).

Definition after_call (c : call) (w : World) : World :=
  match c with
  | GetModel => snd (get_embedding_model w)
  | Embed text => snd (create_embedding text w)
  | EmbedBatch texts => snd (create_embeddings_batch texts w)
  end.

(** The world after a sequence of calls. *)
Definition after_calls (calls : list call) (w : World) : World :=
  fold_left (fun w c => after_call c w) calls w.

End Model.

End ModelCache.

(** ** app.py *)

Module App.
Import Py.

(** The three keys that the application keeps in [st.session_state];
    [None] is a key that is not there. *)
Record SessionState : Type := mkState {
  chunks : option (list EmbeddingUtils.chunk);
  index_created : option bool;
  uploaded_file_names : option (list string)
}.

Definition no_keys : SessionState := mkState None None None.


(** An uploaded file: its name and what pdfplumber reads from it, the text
    of each page, or nothing when it cannot open the file. *)
Record UploadedFile : Type := mkFile {
  name : string;
  pages : option (list (option str))
}.

(** What [create_index] writes to the sidebar, by call site: the errors of
    lines 103, 135 and 166, the warning of line 127 and the success of
    line 154. *)
Inductive message : Type :=
  | NoFileSelected
  | FileFailed (file : string) (e : exn)
  | NoTextExtracted
  | IndexFailed (e : exn)
  | IndexCreated (count : Z).

(** [process_pdf(pdf_file, pdf_file.name)], with the default
    [max_chunk_chars]; a file that pdfplumber cannot read makes
    [extract_text_from_pdf] raise. *)
Definition default_max_chunk_chars : Z := 800.

Definition process_upload (fuel : nat) (pdf_file : UploadedFile)
    : option (outcome (list EmbeddingUtils.chunk)) :=
  match pages pdf_file with
  | None => Some (Raises (Exception "PDFの読み込みに失敗しました"))
  | Some raw =>
      PdfUtils.process_pdf EmbeddingUtils.vector fuel raw (name pdf_file)
        default_max_chunk_chars
  end.

(** The loop over the uploaded files of [create_index]. *)
Fixpoint index_files (fuel : nat) (uploaded_files : list UploadedFile)
    (all_chunks : list EmbeddingUtils.chunk) (file_names : list string)
    (log : list message)
    : option (list EmbeddingUtils.chunk * list string * list message) :=
  match uploaded_files with
  | [] => Some (all_chunks, file_names, log)
  | pdf_file :: rest =>
      match process_upload fuel pdf_file with
      | None => None
      | Some (Returns cs) =>
          index_files fuel rest (all_chunks ++ cs)
            (file_names ++ [name pdf_file]) log
      | Some (Raises e) =>
          index_files fuel rest all_chunks file_names
            (log ++ [FileFailed (name pdf_file) e])
      end
  end.







Section Embedder.

Variable create_embedding : str -> EmbeddingUtils.vector.
Variable create_embeddings_batch :
  list str -> outcome (list EmbeddingUtils.vector).

(** [create_index], as far as the session state and the messages of the
    sidebar go. The progress bar and the status line are left out, and so is
    the closing [st.rerun()], which runs after the state is written and ends
    the run with a control exception that is no [Exception]. *)
Definition create_index (fuel : nat) (uploaded_files : list UploadedFile)
    (st : SessionState) : option (SessionState * list message) :=
  match uploaded_files with
  | [] => Some (st, [NoFileSelected])
  | _ :: _ =>
      match index_files fuel uploaded_files [] [] [] with
      | None => None
      | Some (all_chunks, file_names, log) =>
          match all_chunks with
          | [] => Some (st, log ++ [NoTextExtracted])
          | _ :: _ =>
              match EmbeddingUtils.add_embeddings_to_chunks
                      create_embeddings_batch all_chunks with
              | Raises e => Some (st, log ++ [IndexFailed e])
              | Returns all_chunks' =>
                  Some (mkState (Some all_chunks') (Some true) (Some file_names),
                        log ++ [IndexCreated (len all_chunks')])
              end
          end
      end
  end.



End Embedder.

End App.

(** ** Vocabulary of the specification *)

Import Py.

Module Spec.
Import PdfUtils.

(** A window [[s, e)] of character positions. *)
Definition window : Type := Z * Z.

Definition window_text (text : str) (w : window) : str :=
  slice text (fst w) (snd w).

(** [d] does not occur strictly after [start] in the window. *)
Definition no_occurrence (text : str) (start end_ : Z) (d : char) : Prop :=
  forall q, start < q < end_ -> char_at text q <> Some d.

(** [p] is the last position of the window that holds [d], and it lies
    strictly after [start]. *)
Definition last_occurrence (text : str) (d : char) (start end_ p : Z) : Prop :=
  start < p < end_ /\ char_at text p = Some d /\
  forall q, p < q < end_ -> char_at text q <> Some d.

(** The windows that the loop of [chunk_text] cuts, from [start] on: the
    same control flow as [chunk_loop], recording positions instead of text. *)
Fixpoint windows (fuel : nat) (text : str) (max_chars overlap start : Z)
    : option (list window) :=
  match fuel with
  | O => None
  | S fuel' =>
      if start <? len text then
        let end_ := start + max_chars in
        if end_ >=? len text then Some [(start, len text)]
        else
          let split_pos := find_split text start end_ in
          option_map (cons (start, split_pos))
            (windows fuel' text max_chars overlap
               (next_start start split_pos overlap))
      else Some []
  end.

Definition segment_windows (fuel : nat) (text : str) (max_chars overlap : Z)
    : option (list window) :=
  if len text <=? max_chars then Some [(0, len text)]
  else windows fuel text max_chars overlap 0.

(** The runs of the loop, as a relation between the value of [start] at the
    loop head and the windows cut from there on. *)
Inductive Trace (text : str) (max_chars overlap : Z) : Z -> list window -> Prop :=
  | Trace_exit start :
      len text <= start ->
      Trace text max_chars overlap start []
  | Trace_last start :
      start < len text -> len text <= start + max_chars ->
      Trace text max_chars overlap start [(start, len text)]
  | Trace_step start ws :
      start < len text -> start + max_chars < len text ->
      Trace text max_chars overlap
        (next_start start (find_split text start (start + max_chars)) overlap) ws ->
      Trace text max_chars overlap start
        ((start, find_split text start (start + max_chars)) :: ws).

(** Concatenation of the chunks, each without the prefix that the text
    covered so far (up to position [covered]) already holds. *)
Fixpoint stitch (covered : Z) (ws : list window) (chunks : list str) : str :=
  match ws, chunks with
  | (s, e) :: ws', c :: chunks' =>
      skipn (Z.to_nat (covered - s)) c ++ stitch e ws' chunks'
  | _, _ => []
  end.

(** [s] holds no character that is not whitespace: it is empty or
    whitespace-only, that is, [s.strip()] is empty. *)
Definition blank (s : str) : bool := forallb isspace s.

(** Consecutive windows: the next one starts [overlap] characters before the
    end of the previous one, or at its end. *)
Definition linked (overlap : Z) (ws : list window) : Prop :=
  forall i s e s' e',
    nth_error ws i = Some (s, e) -> nth_error ws (S i) = Some (s', e') ->
    s' = e - overlap \/ s' = e.

(** The result record that the loop of [search_similar_chunks] builds for
    a chunk with similarity [sim]. *)
Definition result_of (c : EmbeddingUtils.chunk) (sim : float)
    : EmbeddingUtils.Result :=
  EmbeddingUtils.mkResult (pdf_name c) (page_number c) (text c) sim.

(** The result of a chunk whose vector is set and whose similarity to the
    query vector reaches the threshold. *)
Definition qualifying (q : EmbeddingUtils.vector) (threshold : float)
    (c : EmbeddingUtils.chunk) : option EmbeddingUtils.Result :=
  match embedding c with
  | None => None
  | Some e =>
      match EmbeddingUtils.calculate_cosine_similarity q e with
      | Returns sim =>
          if (threshold <=? sim)%float then Some (result_of c sim) else None
      | Raises _ => None
      end
  end.

Definition qualifies (q : EmbeddingUtils.vector) (threshold : float)
    (c : EmbeddingUtils.chunk) : bool :=
  match qualifying q threshold c with Some _ => true | None => false end.

(** The results of the qualifying chunks, in the order of the scan. *)
Fixpoint retained (q : EmbeddingUtils.vector) (threshold : float)
    (chunks : list EmbeddingUtils.chunk) : list EmbeddingUtils.Result :=
  match chunks with
  | [] => []
  | c :: rest =>
      match qualifying q threshold c with
      | Some r => r :: retained q threshold rest
      | None => retained q threshold rest
      end
  end.

(** Every vector that is set has the dimension of the query vector. *)
Definition well_dimensioned (q : EmbeddingUtils.vector)
    (chunks : list EmbeddingUtils.chunk) : Prop :=
  Forall (fun c => forall e, embedding c = Some e -> length e = length q) chunks.

(** [b] may follow [a] in a list sorted by similarity, highest first. *)
Definition not_above (a b : EmbeddingUtils.Result) : Prop :=
  (EmbeddingUtils.similarity b <=? EmbeddingUtils.similarity a)%float = true.

(** The similarity of [r] equals [k] (as floats compare). *)
Definition tied (k : float) (r : EmbeddingUtils.Result) : bool :=
  (EmbeddingUtils.similarity r =? k)%float.

End Spec.

(** ** Vocabulary for the callers *)

Module Records.
Import PdfUtils.
Local Open Scope Z_scope.

(** The chunk records that [process_pdf] builds for one page. *)
Definition records (V : Type) (pdf : string) (pg : Page) (chunks : list str)
    : list (Chunk V) :=
  map (fun c => mkChunk pdf (pg_number pg) c (@None V)) chunks.

(** The records of the pages, page after page. *)
Definition page_records (V : Type) (pdf : string) (pages : list Page)
    (css : list (list str)) : list (Chunk V) :=
  concat (map (fun pc => records V pdf (fst pc) (snd pc)) (combine pages css)).

(** A chunk is cut after a delimiter. *)
Definition ends_with_delimiter (c : str) : Prop :=
  exists body d, c = body ++ [d] /\ In d delimiters.

(** A page that is missing or blank. *)
Definition no_text (t : option str) : bool :=
  match t with Some s => Spec.blank s | None => true end.

(** pdfplumber can read the file and some page holds text. *)
Definition has_text (f : App.UploadedFile) : bool :=
  match App.pages f with
  | Some raw => negb (forallb no_text raw)
  | None => false
  end.

(** The exception that [process_pdf] raises for a file without text. *)
Definition failure (f : App.UploadedFile) : exn :=
  match App.pages f with
  | None => Exception "PDFの読み込みに失敗しました"
  | Some _ => Exception (App.name f ++ " からテキストを抽出できませんでした。")
  end.

(** The names of the files that get into the index, in upload order. *)
Definition indexed_names (files : list App.UploadedFile) : list string :=
  map App.name (filter has_text files).

(** One warning for each file that does not, in upload order. *)
Definition warnings (files : list App.UploadedFile) : list App.message :=
  map (fun f => App.FileFailed (App.name f) (failure f))
      (filter (fun f => negb (has_text f)) files).

(** The fuel exceeds the length of every page of every file. *)
Definition enough_fuel (fuel : nat) (files : list App.UploadedFile) : Prop :=
  Forall (fun f => forall raw, App.pages f = Some raw ->
            Forall (fun t => forall s, t = Some s -> (length s < fuel)%nat) raw)
         files.

(** A chunk as the index holds it: its text has 1 to 800 characters and its
    document is one of [names]. *)
Definition indexed_chunk (names : list string) (c : EmbeddingUtils.chunk)
    : Prop :=
  1 <= len (text c) <= App.default_max_chunk_chars /\ In (pdf_name c) names.




(** The model is in the cache and the two lines of the loading were printed
    once after [out]. *)
Definition cache_loaded (M : Type) (load : string -> M) (out : list string)
    (w : ModelCache.World M) : Prop :=
  ModelCache._model_cache w = Some (load ModelCache.MODEL_NAME) /\
  ModelCache.stdout w =
    out ++ [ModelCache.loading_message; ModelCache.loaded_message].

End Records.

(** ** Inputs of the examples *)

Import PdfUtils EmbeddingUtils Spec Records.

(** The text of the specification's delimiter example: three letters, a full
    stop, three letters, a newline, three letters. *)
Definition example_text : str :=
  [65; 65; 65; 12290; 66; 66; 66; 10; 67; 67; 67]%N.

(** A page that pdfplumber could return: a letter, 1600 spaces, a letter. *)
Definition spaced_page : str := [97%N] ++ repeat 32%N 1600 ++ [98%N].

(** The scenario of the specification: the query vector is [[1, 0]]; three
    chunks hold [[1, 0]], [[0, 1]] and [[0.9, 0.1]], and a fourth has no
    vector yet. *)
Definition scenario_embedding (query : str) : vector := [1; 0]%float.

Definition scenario_chunks : list chunk :=
  [ PdfUtils.mkChunk "a.pdf" 1 [97%N] (Some [1; 0]%float);
    PdfUtils.mkChunk "a.pdf" 1 [98%N] (Some [0; 1]%float);
    PdfUtils.mkChunk "a.pdf" 2 [99%N] (Some [0x1.ccccccccccccdp-1; 0x1.999999999999ap-4]%float);
    PdfUtils.mkChunk "a.pdf" 3 [100%N] None ].

(** ** Slices and [rfind] *)

Lemma len_nonneg {A} (l : list A) : 0 <= len l.
Proof. unfold len; lia. Qed.

Lemma len_cons {A} (x : A) (l : list A) : len (x :: l) = len l + 1.
Proof. unfold len. simpl length. lia. Qed.

Lemma adjust_id n i : 0 <= i <= n -> adjust n i = i.
Proof.
  intros H. unfold adjust.
  destruct (Z.ltb_spec i 0); lia.
Qed.

Lemma adjust_range n i : 0 <= n -> 0 <= adjust n i <= n.
Proof.
  intros H. unfold adjust.
  destruct (Z.ltb_spec i 0); lia.
Qed.

Lemma firstn_plus {A} (x y : nat) (l : list A) :
  firstn (x + y) l = firstn x l ++ firstn y (skipn x l).
Proof.
  revert l; induction x as [|x IH]; intros l; simpl.
  - reflexivity.
  - destruct l as [|a l]; simpl.
    + now rewrite firstn_nil.
    + now rewrite IH.
Qed.

Lemma slice_in_range {A} (l : list A) lo hi :
  0 <= lo <= hi -> hi <= len l ->
  slice l lo hi = firstn (Z.to_nat (hi - lo)) (skipn (Z.to_nat lo) l).
Proof.
  intros H1 H2. unfold slice.
  rewrite !adjust_id by lia. reflexivity.
Qed.

Lemma slice_length {A} (l : list A) lo hi :
  0 <= lo <= hi -> hi <= len l -> len (slice l lo hi) = hi - lo.
Proof.
  intros H1 H2. rewrite slice_in_range by assumption.
  unfold len in *. rewrite length_firstn, length_skipn. lia.
Qed.

Lemma slice_all {A} (l : list A) : slice l 0 (len l) = l.
Proof.
  pose proof (len_nonneg l).
  rewrite slice_in_range by lia. simpl.
  apply firstn_all2. unfold len. lia.
Qed.

Lemma slice_from_as_slice {A} (l : list A) lo :
  slice_from l lo = slice l lo (len l).
Proof.
  unfold slice_from, slice.
  pose proof (len_nonneg l) as Hn.
  pose proof (adjust_range lo Hn) as Hlo.
  rewrite (adjust_id (n := len l) (i := len l)) by lia.
  symmetry. apply firstn_all2.
  rewrite length_skipn. unfold len in *. lia.
Qed.

Lemma slice_app {A} (l : list A) a b c :
  0 <= a <= b -> b <= c -> c <= len l ->
  slice l a b ++ slice l b c = slice l a c.
Proof.
  intros H1 H2 H3.
  rewrite !slice_in_range by lia.
  replace (Z.to_nat (c - a)) with (Z.to_nat (b - a) + Z.to_nat (c - b))%nat by lia.
  rewrite firstn_plus, skipn_skipn.
  do 3 f_equal. lia.
Qed.

Lemma skipn_slice {A} (l : list A) s p e :
  0 <= s <= p -> p <= e -> e <= len l ->
  skipn (Z.to_nat (p - s)) (slice l s e) = slice l p e.
Proof.
  intros H1 H2 H3.
  rewrite <- (slice_app l (a := s) (b := p) (c := e)) by lia.
  rewrite skipn_app.
  assert (Hlen : length (slice l s p) = Z.to_nat (p - s)).
  { pose proof (slice_length l (lo := s) (hi := p)) as E. unfold len in *. lia. }
  rewrite <- Hlen, skipn_all, Nat.sub_diag. reflexivity.
Qed.

Lemma slice_nonempty {A} (l : list A) lo hi :
  0 <= lo < hi -> hi <= len l -> slice l lo hi <> [].
Proof.
  intros H1 H2 E.
  pose proof (slice_length l (lo := lo) (hi := hi) ltac:(lia) H2) as L.
  rewrite E in L. unfold len in L. simpl in L. lia.
Qed.

(** What [rfind_aux] returns: [-1] when no position of the range holds [d],
    and otherwise the highest such position. *)
Lemma rfind_aux_spec l d lo hi : forall i, 0 <= i ->
  let r := rfind_aux l i d lo hi in
  (r = -1 /\
   forall k, lo <= i + Z.of_nat k < hi -> nth_error l k <> Some d)
  \/
  (exists k, r = i + Z.of_nat k /\ lo <= r < hi /\ nth_error l k = Some d /\
     forall k', (k < k')%nat -> lo <= i + Z.of_nat k' < hi ->
                nth_error l k' <> Some d).
Proof.
  induction l as [|c l IH]; intros i Hi; simpl.
  - left. split; [reflexivity|]. intros k _. now destruct k.
  - specialize (IH (i + 1) ltac:(lia)). simpl in IH.
    destruct IH as [[Hr Hnone] | [k [Hr [Hin [Hk Hmax]]]]].
    + rewrite Hr. simpl.
      destruct ((lo <=? i) && (i <? hi) && (c =? d)%N) eqn:E.
      * right. exists 0%nat.
        apply andb_prop in E as [E Ec]. apply andb_prop in E as [E1 E2].
        apply N.eqb_eq in Ec. subst c.
        repeat split; try lia.
        intros k' Hk' Hrange. destruct k' as [|k']; [lia|]. simpl.
        apply Hnone. lia.
      * left. split; [reflexivity|].
        intros k Hrange. destruct k as [|k]; simpl.
        -- intros Ec. injection Ec as ->.
           rewrite N.eqb_refl, andb_true_r in E.
           apply andb_false_iff in E as [E|E]; lia.
        -- apply Hnone. lia.
    + assert (E0 : (0 <=? rfind_aux l (i + 1) d lo hi) = true) by (apply Z.leb_le; lia).
      rewrite E0. right. exists (S k).
      repeat split; try lia; try assumption.
      intros k' Hk' Hrange. destruct k' as [|k']; [lia|]. simpl.
      apply Hmax; lia.
Qed.

(** [rfind] inside the text: the result is [-1] and the window holds no [d],
    or it is the last position of the window that holds [d]. *)
Lemma rfind_spec text d start end_ :
  0 <= start -> 0 <= end_ <= len text ->
  let r := rfind text d start end_ in
  (r = -1 /\ forall p, start <= p < end_ -> char_at text p <> Some d)
  \/
  (start <= r < end_ /\ char_at text r = Some d /\
   forall q, r < q < end_ -> char_at text q <> Some d).
Proof.
  intros Hs He. unfold rfind. simpl.
  destruct (Z.le_gt_cases start end_) as [Hse | Hse].
  - rewrite !adjust_id by lia.
    destruct (rfind_aux_spec text d start end_ (i := 0) ltac:(lia))
      as [[Hr Hnone] | [k [Hr [Hin [Hk Hmax]]]]].
    + left. split; [assumption|]. intros p Hp. unfold char_at.
      destruct (Z.ltb_spec p 0); [lia|].
      apply Hnone. lia.
    + right. rewrite Hr in *. split; [lia|]. split.
      * unfold char_at. destruct (Z.ltb_spec (0 + Z.of_nat k) 0); [lia|].
        now replace (Z.to_nat (0 + Z.of_nat k)) with k by lia.
      * intros q Hq. unfold char_at.
        destruct (Z.ltb_spec q 0); [lia|].
        apply Hmax; lia.
  - left.
    pose proof (len_nonneg text) as Hn.
    pose proof (adjust_range start Hn) as Ha.
    assert (Hb : adjust (len text) end_ <= adjust (len text) start).
    { unfold adjust. destruct (Z.ltb_spec end_ 0), (Z.ltb_spec start 0); lia. }
    destruct (rfind_aux_spec text d (adjust (len text) start) (adjust (len text) end_)
                (i := 0) ltac:(lia))
      as [[Hr Hnone] | [k [Hr [Hin _]]]]; [|lia].
    split; [assumption|]. intros p Hp. lia.
Qed.

(** ** The delimiter search of [chunk_text] *)

Lemma split_loop_bounds ds text start end_ :
  0 <= start < end_ -> end_ <= len text ->
  start < split_loop ds text start end_ <= end_.
Proof.
  intros Hs He. induction ds as [|d ds IH]; simpl.
  - lia.
  - destruct (Z.gtb_spec (rfind text d start end_) start) as [Hgt|Hle].
    + destruct (rfind_spec text d (start := start) (end_ := end_))
        as [[Hr _] | [Hr _]]; lia.
    + exact IH.
Qed.

Lemma split_loop_none ds text start end_ :
  0 <= start -> 0 <= end_ <= len text ->
  Forall (no_occurrence text start end_) ds ->
  split_loop ds text start end_ = end_.
Proof.
  intros Hs He Hnone. induction Hnone as [|d ds Hd _ IH]; simpl.
  - reflexivity.
  - destruct (Z.gtb_spec (rfind text d start end_) start) as [Hgt|Hle].
    + destruct (rfind_spec text d (start := start) (end_ := end_))
        as [[Hr _] | [Hr [Hc _]]]; try lia.
      exfalso. apply (Hd (rfind text d start end_)); [lia | assumption].
    + exact IH.
Qed.

Lemma split_loop_found higher d lower text start end_ p :
  0 <= start -> 0 <= end_ <= len text ->
  Forall (no_occurrence text start end_) higher ->
  last_occurrence text d start end_ p ->
  split_loop (higher ++ d :: lower) text start end_ = p + 1.
Proof.
  intros Hs He Hnone [Hp [Hc Hmax]].
  induction Hnone as [|d' ds Hd _ IH]; simpl.
  - destruct (rfind_spec text d (start := start) (end_ := end_))
      as [[Hr Hno] | [Hr [Hcr Hrmax]]]; try lia.
    + exfalso. apply (Hno p); [lia | assumption].
    + assert (rfind text d start end_ = p) as ->.
      { destruct (Z.lt_trichotomy (rfind text d start end_) p) as [Hlt|[Heq|Hgt]].
        - exfalso. apply (Hrmax p); [lia | assumption].
        - assumption.
        - exfalso. apply (Hmax (rfind text d start end_)); [lia | assumption]. }
      destruct (Z.gtb_spec p start); [reflexivity | lia].
  - destruct (Z.gtb_spec (rfind text d' start end_) start) as [Hgt|Hle].
    + destruct (rfind_spec text d' (start := start) (end_ := end_))
        as [[Hr _] | [Hr [Hcr _]]]; try lia.
      exfalso. apply (Hd (rfind text d' start end_)); [lia | assumption].
    + exact IH.
Qed.

(** One run of the loop body when the window does not reach the end. *)
Lemma chunk_loop_step fuel text max_chars overlap start chunks :
  0 < max_chars -> start + max_chars < len text ->
  chunk_loop (S fuel) text max_chars overlap start chunks =
  chunk_loop fuel text max_chars overlap
    (next_start start (find_split text start (start + max_chars)) overlap)
    (chunks ++ [slice text start (find_split text start (start + max_chars))]).
Proof.
  intros Hm Hend. simpl.
  destruct (Z.ltb_spec start (len text)); [|lia].
  destruct (Z.geb_spec (start + max_chars) (len text)); [lia|].
  reflexivity.
Qed.

(** C3. In a window [[start, start + max_chars)] that ends before the end of
    the text, the delimiters are tried in the order full stop, newline,
    comma, space: the first one that occurs strictly after [start] decides,
    whatever lies nearer to the window end, and the split point is the
    position after its last occurrence in the window; when none occurs
    strictly after [start] the split point is the window end.  The loop emits
    [text[start:split_pos]] and goes on from the next start. *)
Theorem delimiter_priority text start max_chars :
  0 <= start -> 0 < max_chars -> start + max_chars < len text ->
  (forall higher d lower p,
      delimiters = higher ++ d :: lower ->
      Forall (no_occurrence text start (start + max_chars)) higher ->
      last_occurrence text d start (start + max_chars) p ->
      find_split text start (start + max_chars) = p + 1)
  /\ (Forall (no_occurrence text start (start + max_chars)) delimiters ->
      find_split text start (start + max_chars) = start + max_chars)
  /\ (forall fuel overlap chunks,
      chunk_loop (S fuel) text max_chars overlap start chunks =
      chunk_loop fuel text max_chars overlap
        (next_start start (find_split text start (start + max_chars)) overlap)
        (chunks ++ [slice text start (find_split text start (start + max_chars))])).
Proof.
  intros Hs Hm Hend. split; [|split].
  - intros higher d lower p Hds Hnone Hlast.
    unfold find_split. rewrite Hds.
    apply split_loop_found; try assumption; lia.
  - intros Hnone. unfold find_split.
    apply split_loop_none; try assumption; lia.
  - intros fuel overlap chunks. now apply chunk_loop_step.
Qed.

Lemma delimiter_priority_witness :
  (0 <= 0 /\ 0 < 10 /\ 0 + 10 < len example_text) /\
  find_split example_text 0 (0 + 10) = 3 + 1.
Proof.
  split; [vm_compute; intuition discriminate|].
  refine (proj1 (@delimiter_priority example_text 0 10 _ _ _)
            [] 12290%N [10; 12289; 32]%N 3 eq_refl (Forall_nil _) _);
    try (vm_compute; intuition discriminate).
  split; [lia|]. split; [reflexivity|].
  intros q Hq.
  assert (Hcases : q = 4 \/ q = 5 \/ q = 6 \/ q = 7 \/ q = 8 \/ q = 9) by lia.
  destruct Hcases as [->|[->|[->|[->|[->| ->]]]]]; vm_compute; discriminate.
Defined.

(** ** The loop of [chunk_text] and its windows *)

Lemma chunk_loop_windows text max_chars overlap : forall fuel start chunks,
  chunk_loop fuel text max_chars overlap start chunks =
  option_map (fun ws => chunks ++ map (window_text text) ws)
             (windows fuel text max_chars overlap start).
Proof.
  induction fuel as [|fuel IH]; intros start chunks; simpl.
  - reflexivity.
  - destruct (start <? len text).
    + destruct (start + max_chars >=? len text).
      * simpl. unfold window_text. simpl. now rewrite slice_from_as_slice.
      * rewrite IH.
        destruct (windows fuel text max_chars overlap _) as [ws|]; simpl.
        -- now rewrite <- app_assoc.
        -- reflexivity.
    + simpl. now rewrite app_nil_r.
Qed.

Lemma chunk_text_windows fuel text max_chars overlap :
  chunk_text fuel text max_chars overlap =
  option_map (map (window_text text))
             (segment_windows fuel text max_chars overlap).
Proof.
  unfold chunk_text, segment_windows.
  destruct (len text <=? max_chars).
  - simpl. unfold window_text. simpl. now rewrite slice_all.
  - now rewrite chunk_loop_windows.
Qed.

Lemma windows_Trace text max_chars overlap : forall fuel start ws,
  windows fuel text max_chars overlap start = Some ws ->
  Trace text max_chars overlap start ws.
Proof.
  induction fuel as [|fuel IH]; intros start ws; simpl.
  - discriminate.
  - destruct (Z.ltb_spec start (len text)) as [Hlt|Hge].
    + destruct (Z.geb_spec (start + max_chars) (len text)) as [Hend|Hend].
      * intros [= <-]. apply Trace_last; lia.
      * destruct (windows fuel text max_chars overlap _) as [ws'|] eqn:E;
          simpl; [|discriminate].
        intros [= <-]. apply Trace_step; try lia. now apply IH.
    + intros [= <-]. now apply Trace_exit.
Qed.


Lemma next_start_advances start split_pos overlap :
  start < split_pos -> start < next_start start split_pos overlap.
Proof.
  intros H. unfold next_start.
  destruct (Z.gtb_spec (split_pos - overlap) start); lia.
Qed.

Lemma next_start_le start split_pos overlap :
  0 <= overlap -> next_start start split_pos overlap <= split_pos.
Proof.
  intros H. unfold next_start.
  destruct (Z.gtb_spec (split_pos - overlap) start); lia.
Qed.

Lemma find_split_bounds text start max_chars :
  0 <= start -> 0 < max_chars -> start + max_chars <= len text ->
  start < find_split text start (start + max_chars) <= start + max_chars.
Proof.
  intros Hs Hm Hend. unfold find_split. apply split_loop_bounds; lia.
Qed.

(** The loop ends: every run moves [start] forward, whatever [overlap] is. *)
Lemma windows_terminate text max_chars overlap :
  0 < max_chars ->
  forall fuel start, 0 <= start ->
  (Z.to_nat (len text - start) < fuel)%nat ->
  exists ws, windows fuel text max_chars overlap start = Some ws.
Proof.
  intros Hm. induction fuel as [|fuel IH]; intros start Hs Hfuel; [lia|].
  simpl.
  destruct (Z.ltb_spec start (len text)) as [Hlt|Hge]; [|eauto].
  destruct (Z.geb_spec (start + max_chars) (len text)) as [Hend|Hend]; [eauto|].
  pose proof (@find_split_bounds text start max_chars) as Hsp.
  pose proof (@next_start_advances start
                (find_split text start (start + max_chars)) overlap) as Hadv.
  destruct (IH (next_start start (find_split text start (start + max_chars)) overlap))
    as [ws Hws]; [lia | lia |].
  rewrite Hws. simpl. eauto.
Qed.

(** With a non-negative overlap the next start stays inside the text, and one
    unit of fuel per character is enough. *)
Lemma windows_terminate_tight text max_chars overlap :
  0 < max_chars -> 0 <= overlap ->
  forall fuel start, 0 <= start < len text ->
  (Z.to_nat (len text - start) <= fuel)%nat ->
  exists ws, windows fuel text max_chars overlap start = Some ws.
Proof.
  intros Hm Hv. induction fuel as [|fuel IH]; intros start Hs Hfuel; [lia|].
  simpl.
  destruct (Z.ltb_spec start (len text)) as [Hlt|Hge]; [|lia].
  destruct (Z.geb_spec (start + max_chars) (len text)) as [Hend|Hend]; [eauto|].
  pose proof (@find_split_bounds text start max_chars) as Hsp.
  pose proof (@next_start_advances start
                (find_split text start (start + max_chars)) overlap) as Hadv.
  pose proof (@next_start_le start
                (find_split text start (start + max_chars)) overlap Hv) as Hle.
  destruct (IH (next_start start (find_split text start (start + max_chars)) overlap))
    as [ws Hws]; [lia | lia |].
  rewrite Hws. simpl. eauto.
Qed.

(** Every window is a non-empty stretch of the text of at most [max_chars]
    characters, at or after the start it was cut from. *)
Lemma Trace_bounds text max_chars overlap start ws :
  0 < max_chars -> 0 <= start ->
  Trace text max_chars overlap start ws ->
  Forall (fun w => start <= fst w /\ fst w < snd w /\ snd w <= len text /\
                   snd w - fst w <= max_chars) ws.
Proof.
  intros Hm Hs T. induction T as [s Hge | s Hlt Hend | s ws Hlt Hend T IH].
  - constructor.
  - constructor; [simpl; lia | constructor].
  - pose proof (@find_split_bounds text s max_chars) as Hsp.
    pose proof (@next_start_advances s
                  (find_split text s (s + max_chars)) overlap) as Hadv.
    constructor; [simpl; lia|].
    eapply Forall_impl; [|apply IH; lia].
    simpl. intros w Hw. lia.
Qed.


(** ** Chunk sizes, forward progress and parameter checks *)

Lemma window_text_length text w :
  0 <= fst w <= snd w -> snd w <= len text ->
  len (window_text text w) = snd w - fst w.
Proof. intros H1 H2. unfold window_text. now apply slice_length. Qed.

(** C8. With [0 <= overlap < max_chars], [chunk_text] returns, every chunk
    has at most [max_chars] characters, and a text of at most [max_chars]
    characters comes back as the only chunk. *)
Theorem chunk_size_and_short_text fuel text max_chars overlap :
  0 <= overlap < max_chars -> (length text <= fuel)%nat ->
  exists chunks,
    chunk_text fuel text max_chars overlap = Some chunks /\
    Forall (fun c => len c <= max_chars) chunks /\
    (len text <= max_chars -> chunks = [text]).
Proof.
  intros Hv Hfuel. unfold chunk_text.
  destruct (Z.leb_spec (len text) max_chars) as [Hshort|Hlong].
  - exists [text]. repeat split; auto.
  - rewrite chunk_loop_windows.
    destruct (@windows_terminate_tight text max_chars overlap ltac:(lia) ltac:(lia)
                fuel 0) as [ws Hws]; [lia | unfold len; lia |].
    rewrite Hws. simpl. eexists. split; [reflexivity|]. split; [|lia].
    apply windows_Trace in Hws.
    apply Trace_bounds in Hws; try lia.
    apply Forall_map. eapply Forall_impl; [|exact Hws].
    simpl. intros w Hw. rewrite window_text_length; lia.
Qed.

Lemma chunk_size_and_short_text_witness :
  exists chunks,
    chunk_text 11 example_text 5 2 = Some chunks /\
    Forall (fun c => len c <= 5) chunks /\
    (len example_text <= 5 -> chunks = [example_text]).
Proof.
  apply (@chunk_size_and_short_text 11 example_text 5 2).
  - lia.
  - simpl. lia.
Defined.






(** A delimiter near the start of a window makes a step shorter than
    [max_chars - overlap]: ten characters, [max_chars = 5] and no overlap give
    three chunks. *)
Example delimiter_shortens_step :
  chunk_text 10 [97; 12290; 98; 98; 98; 98; 98; 98; 98; 98]%N 5 0 =
  Some [[97; 12290]; [98; 98; 98; 98; 98]; [98; 98; 98]]%N.
Proof. vm_compute. reflexivity. Qed.

(** Without overlap the chunks are cut one after the other. *)
Lemma Trace_consecutive text max_chars overlap start ws :
  0 < max_chars <= overlap -> 0 <= start <= len text ->
  Trace text max_chars overlap start ws ->
  concat (map (window_text text) ws) = slice text start (len text).
Proof.
  intros Hm Hs T. induction T as [s Hge | s Hlt Hend | s ws Hlt Hend T IH].
  - simpl. replace s with (len text) by lia.
    rewrite slice_in_range by lia.
    now rewrite Z.sub_diag.
  - simpl. now rewrite app_nil_r.
  - pose proof (@find_split_bounds text s max_chars) as Hsp.
    assert (Hnext : next_start s (find_split text s (s + max_chars)) overlap =
                    find_split text s (s + max_chars)).
    { unfold next_start.
      destruct (Z.gtb_spec (find_split text s (s + max_chars) - overlap) s); lia. }
    rewrite Hnext in IH. simpl. rewrite IH by lia.
    unfold window_text. simpl. apply slice_app; lia.
Qed.

(** C5, as the code has it. [chunk_text] checks no parameter. With
    [0 < max_chars <= overlap] it returns: the chunks are not empty, have at
    most [max_chars] characters each, and are cut without overlap, so that
    their concatenation is the text. *)
Theorem unchecked_overlap_returns fuel text max_chars overlap :
  0 < max_chars <= overlap -> (length text < fuel)%nat ->
  exists chunks,
    chunk_text fuel text max_chars overlap = Some chunks /\
    chunks <> [] /\
    Forall (fun c => len c <= max_chars) chunks /\
    concat chunks = text.
Proof.
  intros Hm Hfuel. unfold chunk_text.
  destruct (Z.leb_spec (len text) max_chars) as [Hshort|Hlong].
  - exists [text]. repeat split; auto.
    + discriminate.
    + simpl. apply app_nil_r.
  - rewrite chunk_loop_windows.
    destruct (@windows_terminate text max_chars overlap ltac:(lia)
                fuel 0) as [ws Hws]; [lia | unfold len; lia |].
    rewrite Hws. simpl. eexists. split; [reflexivity|].
    apply windows_Trace in Hws.
    pose proof (len_nonneg text) as Hn.
    split; [|split].
    + inversion Hws; subst; simpl; try discriminate. lia.
    + apply Trace_bounds in Hws; try lia.
      apply Forall_map. eapply Forall_impl; [|exact Hws].
      simpl. intros w Hw. rewrite window_text_length; lia.
    + rewrite (@Trace_consecutive text max_chars overlap 0 _ Hm) by (assumption || lia).
      apply slice_all.
Qed.

Lemma unchecked_overlap_returns_witness :
  exists chunks,
    chunk_text 12 example_text 3 3 = Some chunks /\
    chunks <> [] /\
    Forall (fun c => len c <= 3) chunks /\
    concat chunks = example_text.
Proof.
  apply (@unchecked_overlap_returns 12 example_text 3 3).
  - lia.
  - simpl. lia.
Defined.

(** C5 as stated fails: with [max_chars = overlap = 3] the call is malformed
    by the specification, and it returns four chunks. *)
Lemma malformed_parameters_accepted :
  (3 <= 3 \/ 3 <= 0) /\
  chunk_text 12 example_text 3 3 =
  Some [[65; 65; 65]; [12290; 66; 66]; [66; 10]; [67; 67; 67]]%N.
Proof. split; [left; lia | vm_compute; reflexivity]. Qed.

(** With [max_chars = 0] the loop stays at [start = 0] for ever. *)
Lemma zero_max_chars_never_returns text overlap :
  text <> [] -> 0 <= overlap ->
  forall fuel, chunk_text fuel text 0 overlap = None.
Proof.
  intros Hne Hv fuel.
  assert (Hn : 0 < len text).
  { destruct text; [congruence | unfold len; simpl; lia]. }
  unfold chunk_text.
  destruct (Z.leb_spec (len text) 0); [lia|].
  generalize (@nil str).
  induction fuel as [|fuel IH]; intros chunks; simpl; [reflexivity|].
  destruct (Z.ltb_spec 0 (len text)); [|lia].
  destruct (Z.geb_spec 0 (len text)); [lia|].
  assert (Hsp : find_split text 0 0 = 0).
  { unfold find_split. simpl.
    assert (Hr : forall d, rfind text d 0 0 = -1).
    { intros d.
      destruct (rfind_spec text d (start := 0) (end_ := 0)) as [[Hr _]|[Hr _]];
        lia. }
    now rewrite !Hr. }
  rewrite Hsp.
  assert (Hnext : next_start 0 0 overlap = 0).
  { unfold next_start. destruct (Z.gtb_spec (0 - overlap) 0); lia. }
  rewrite Hnext. apply IH.
Qed.

(** ** Coverage of the text by the chunks *)

(** Moving a window to the right never moves its split point to the left,
    as long as the new start lies before the old split point. *)
Lemma split_loop_mono text s s' e e' : forall ds,
  0 <= s < s' -> s < e -> e <= e' -> e' <= len text ->
  s' < split_loop ds text s e ->
  split_loop ds text s e <= split_loop ds text s' e'.
Proof.
  intros ds Hs Hse Hee He'. induction ds as [|d ds IH]; simpl; [lia|].
  pose proof (@split_loop_bounds ds text s e ltac:(lia) ltac:(lia)) as Hb.
  destruct (rfind_spec text d (start := s) (end_ := e) ltac:(lia) ltac:(lia))
    as [[Hr Hno] | [Hr [Hc Hmax]]];
  destruct (Z.gtb_spec (rfind text d s e) s) as [Hgt|Hle]; try lia; intros Hlt.
  - (* [d] is not in the old window *)
    destruct (Z.gtb_spec (rfind text d s' e') s') as [Hgt'|Hle']; [|now apply IH].
    destruct (rfind_spec text d (start := s') (end_ := e') ltac:(lia) ltac:(lia))
      as [[Hr' _] | [Hr' [Hc' _]]]; [lia|].
    destruct (Z.lt_ge_cases (rfind text d s' e') e) as [Hin|Hout]; [|lia].
    exfalso. apply (Hno (rfind text d s' e')); [lia | assumption].
  - (* the old window splits after [d] *)
    assert (He : s' < e') by lia.
    destruct (rfind_spec text d (start := s') (end_ := e') ltac:(lia) ltac:(lia))
      as [[Hr' Hno'] | [Hr' [Hc' Hmax']]].
    + exfalso. apply (Hno' (rfind text d s e)); [lia | assumption].
    + assert (Hge : rfind text d s e <= rfind text d s' e').
      { destruct (Z.le_gt_cases (rfind text d s e) (rfind text d s' e'));
          [assumption|].
        exfalso. apply (Hmax' (rfind text d s e)); [lia | assumption]. }
      destruct (Z.gtb_spec (rfind text d s' e') s') as [Hgt'|Hle']; [lia|].
      pose proof (@split_loop_bounds ds text s' e' ltac:(lia) ltac:(lia)).
      lia.
  - (* [d] occurs in the old window at [s] only *)
    destruct (Z.gtb_spec (rfind text d s' e') s') as [Hgt'|Hle']; [|now apply IH].
    destruct (rfind_spec text d (start := s') (end_ := e') ltac:(lia) ltac:(lia))
      as [[Hr' _] | [Hr' [Hc' _]]]; [lia|].
    destruct (Z.lt_ge_cases (rfind text d s' e') e) as [Hin|Hout]; [|lia].
    exfalso. apply (Hmax (rfind text d s' e')); [lia | assumption].
Qed.

(** The end of the next window is not before the end of this one. *)
Lemma next_split_not_before text max_chars overlap start :
  0 <= overlap < max_chars -> 0 <= start -> start + max_chars < len text ->
  next_start start (find_split text start (start + max_chars)) overlap
    + max_chars <= len text ->
  find_split text start (start + max_chars) <=
  find_split text
    (next_start start (find_split text start (start + max_chars)) overlap)
    (next_start start (find_split text start (start + max_chars)) overlap
     + max_chars).
Proof.
  intros Hv Hs Hend Hnext.
  pose proof (@find_split_bounds text start max_chars) as Hsp.
  pose proof (@next_start_advances start
                (find_split text start (start + max_chars)) overlap) as Hadv.
  pose proof (@next_start_le start
                (find_split text start (start + max_chars)) overlap) as Hle.
  remember (next_start start (find_split text start (start + max_chars)) overlap)
    as s' eqn:Es'.
  destruct (Z.eq_dec s' (find_split text start (start + max_chars))) as [E|E].
  - pose proof (@find_split_bounds text s' max_chars). lia.
  - unfold find_split. apply split_loop_mono; try lia.
    fold (find_split text start (start + max_chars)). lia.
Qed.

Lemma Trace_stitch text max_chars overlap start ws :
  0 <= overlap < max_chars ->
  Trace text max_chars overlap start ws ->
  forall covered,
    0 <= start <= covered -> covered <= len text ->
    (start + max_chars < len text ->
     covered <= find_split text start (start + max_chars)) ->
    stitch covered ws (map (window_text text) ws) = slice text covered (len text).
Proof.
  intros Hv T. induction T as [s Hge | s Hlt Hend | s ws Hlt Hend T IH];
    intros covered Hs Hc Hfirst.
  - simpl. replace covered with (len text) by lia.
    rewrite slice_in_range by lia. now rewrite Z.sub_diag.
  - simpl. unfold window_text. simpl.
    rewrite skipn_slice by lia. apply app_nil_r.
  - pose proof (@find_split_bounds text s max_chars) as Hsp.
    pose proof (@next_start_advances s
                  (find_split text s (s + max_chars)) overlap) as Hadv.
    pose proof (@next_start_le s
                  (find_split text s (s + max_chars)) overlap) as Hle.
    simpl. unfold window_text at 1. simpl.
    rewrite skipn_slice by lia.
    rewrite IH; try lia.
    + apply slice_app; lia.
    + intros Hnext. apply next_split_not_before; lia.
Qed.

Lemma Trace_head text max_chars overlap start ws :
  Trace text max_chars overlap start ws -> start < len text ->
  exists e rest, ws = (start, e) :: rest.
Proof.
  intros T Hlt. destruct T; [lia | eauto | eauto].
Qed.

Lemma Trace_first text max_chars overlap start ws :
  Trace text max_chars overlap start ws ->
  ws = [] \/ exists e rest, ws = (start, e) :: rest.
Proof.
  intros T. destruct T; eauto.
Qed.

Lemma Trace_linked text max_chars overlap start ws :
  Trace text max_chars overlap start ws -> linked overlap ws.
Proof.
  intros T. induction T as [s Hge | s Hlt Hend | s ws Hlt Hend T IH];
    intros i a b a' b' Hi Hi'.
  - now destruct i.
  - destruct i as [|[|i]]; discriminate.
  - destruct i as [|i].
    + simpl in Hi, Hi'. injection Hi as <- <-.
      destruct (Trace_first T) as [-> | [e [rest ->]]]; [discriminate|].
      simpl in Hi'. injection Hi' as <- _.
      unfold next_start.
      destruct (find_split text s (s + max_chars) - overlap >? s); auto.
    + simpl in Hi, Hi'. eapply IH; eassumption.
Qed.

Lemma Trace_last_end text max_chars overlap start ws :
  0 <= overlap -> 0 < max_chars -> 0 <= start < len text ->
  Trace text max_chars overlap start ws ->
  snd (last ws (0, 0)) = len text.
Proof.
  intros Hv Hm Hs T. induction T as [s Hge | s Hlt Hend | s ws Hlt Hend T IH].
  - lia.
  - reflexivity.
  - pose proof (@find_split_bounds text s max_chars) as Hsp.
    pose proof (@next_start_advances s
                  (find_split text s (s + max_chars)) overlap) as Hadv.
    pose proof (@next_start_le s
                  (find_split text s (s + max_chars)) overlap) as Hle.
    destruct (Trace_head T) as [e [rest ->]]; [lia|].
    change (snd (last ((next_start s (find_split text s (s + max_chars)) overlap, e)
                         :: rest) (0, 0)) = len text).
    apply IH. lia.
Qed.

(** C2. With [0 <= overlap < max_chars] the chunks are the text on windows
    [[s_i, e_i)] with [s_0 = 0], the last [e_i] equal to [len(text)], and
    each next start at [e_i - overlap] or at [e_i]; dropping from each chunk
    the part that the chunks before it already cover and concatenating gives
    the text back. *)
Theorem segmentation_coverage fuel text max_chars overlap :
  0 <= overlap < max_chars -> (length text <= fuel)%nat ->
  exists ws,
    chunk_text fuel text max_chars overlap = Some (map (window_text text) ws) /\
    (exists e rest, ws = (0, e) :: rest) /\
    snd (last ws (0, 0)) = len text /\
    Forall (fun w => 0 <= fst w <= snd w /\ snd w <= len text) ws /\
    linked overlap ws /\
    stitch 0 ws (map (window_text text) ws) = text.
Proof.
  intros Hv Hfuel. rewrite chunk_text_windows. unfold segment_windows.
  pose proof (len_nonneg text) as Hn.
  destruct (Z.leb_spec (len text) max_chars) as [Hshort|Hlong].
  - exists [(0, len text)]. simpl. repeat split; eauto.
    + constructor; [simpl; lia | constructor].
    + intros [|[|i]] s e s' e'; discriminate.
    + unfold window_text. simpl. rewrite slice_all. apply app_nil_r.
  - destruct (@windows_terminate_tight text max_chars overlap ltac:(lia) ltac:(lia)
                fuel 0) as [ws Hws]; [lia | unfold len; lia |].
    rewrite Hws. simpl. exists ws. split; [reflexivity|].
    apply windows_Trace in Hws.
    split; [apply (Trace_head Hws); lia|].
    split; [apply (Trace_last_end (start := 0) (max_chars := max_chars)
                     (overlap := overlap)); (assumption || lia)|].
    split.
    { eapply Forall_impl;
        [|apply (@Trace_bounds text max_chars overlap 0 ws); (assumption || lia)].
      simpl. intros w Hw. lia. }
    split; [apply (Trace_linked Hws)|].
    rewrite (Trace_stitch Hv Hws (covered := 0)).
    + apply slice_all.
    + lia.
    + lia.
    + intros _. pose proof (@find_split_bounds text 0 max_chars). lia.
Qed.

Lemma segmentation_coverage_witness :
  exists ws,
    chunk_text 11 example_text 5 2 = Some (map (window_text example_text) ws) /\
    (exists e rest, ws = (0, e) :: rest) /\
    snd (last ws (0, 0)) = len example_text /\
    Forall (fun w => 0 <= fst w <= snd w /\ snd w <= len example_text) ws /\
    linked 2 ws /\
    stitch 0 ws (map (window_text example_text) ws) = example_text.
Proof.
  apply (@segmentation_coverage 11 example_text 5 2).
  - lia.
  - simpl. lia.
Defined.

(** ** The chunk records of [process_pdf] *)

Lemma lstrip_length s : (length (lstrip s) <= length s)%nat.
Proof.
  induction s as [|c s IH]; simpl; [lia|].
  destruct (isspace c); simpl; lia.
Qed.

Lemma strip_length s : (length (strip s) <= length s)%nat.
Proof.
  unfold strip. rewrite length_rev.
  etransitivity; [apply lstrip_length|].
  rewrite length_rev. apply lstrip_length.
Qed.

(** The pages that [extract_text_from_pdf] keeps hold text, and no more of
    it than pdfplumber gave. *)
Lemma extract_pages_texts fuel raw : forall page_num,
  Forall (fun t => forall s, t = Some s -> (length s < fuel)%nat) raw ->
  Forall (fun pg => pg_text pg <> [] /\ (length (pg_text pg) < fuel)%nat)
         (extract_pages page_num raw).
Proof.
  induction raw as [|t raw IH]; intros page_num Hraw; simpl.
  - constructor.
  - inversion Hraw as [|? ? Ht Hrest]; subst.
    destruct t as [s|]; [|now apply IH].
    destruct s as [|c s]; [now apply IH|].
    destruct (strip (c :: s)) as [|c' s'] eqn:E; [now apply IH|].
    constructor; [|now apply IH].
    split; [discriminate|].
    pose proof (strip_length (c :: s)) as Hlen. rewrite E in Hlen.
    specialize (Ht _ eq_refl). cbn [pg_text]. lia.
Qed.

(** The chunks of a text that is not empty are not empty, for any overlap. *)
Lemma chunk_text_nonempty fuel text max_chars overlap :
  0 < max_chars -> text <> [] -> (length text < fuel)%nat ->
  exists chunks,
    chunk_text fuel text max_chars overlap = Some chunks /\
    Forall (fun c => c <> []) chunks.
Proof.
  intros Hm Hne Hfuel. unfold chunk_text.
  destruct (Z.leb_spec (len text) max_chars) as [Hshort|Hlong].
  - exists [text]. split; [reflexivity|]. now constructor.
  - rewrite chunk_loop_windows.
    destruct (@windows_terminate text max_chars overlap Hm fuel 0) as [ws Hws];
      [lia | unfold len; lia |].
    rewrite Hws. simpl. eexists. split; [reflexivity|].
    apply windows_Trace in Hws.
    apply Trace_bounds in Hws; try lia.
    apply Forall_map. eapply Forall_impl; [|exact Hws].
    simpl. intros w Hw. unfold window_text. apply slice_nonempty; lia.
Qed.

Lemma process_pages_nonempty (V : Type) fuel pdf max_chunk_chars :
  0 < max_chunk_chars ->
  forall pages_data (all_chunks : list (Chunk V)),
  Forall (fun pg => pg_text pg <> [] /\ (length (pg_text pg) < fuel)%nat) pages_data ->
  Forall (fun c => text c <> [] /\ embedding c = None) all_chunks ->
  exists cs,
    process_pages fuel pdf max_chunk_chars pages_data all_chunks = Some cs /\
    Forall (fun c => text c <> [] /\ embedding c = None) cs.
Proof.
  intros Hm. induction pages_data as [|pg pages IH]; intros all_chunks Hpages Hall;
    simpl.
  - eauto.
  - inversion Hpages as [|? ? [Hne Hlen] Hrest]; subst.
    destruct (@chunk_text_nonempty fuel (pg_text pg) max_chunk_chars default_overlap
                Hm Hne Hlen) as [chunks [-> Hchunks]].
    apply IH; [assumption|].
    apply Forall_app. split; [assumption|].
    apply Forall_map. eapply Forall_impl; [|exact Hchunks].
    simpl. auto.
Qed.

(** C6, as the code has it. For [max_chunk_chars >= 1], [process_pdf] raises
    when no page holds text and otherwise returns chunk records whose text
    is not empty and whose embedding is unset. *)
Theorem chunk_records_not_empty (V : Type) fuel raw pdf max_chunk_chars :
  0 < max_chunk_chars ->
  Forall (fun t => forall s, t = Some s -> (length s < fuel)%nat) raw ->
  (extract_text_from_pdf raw = [] /\
   exists e, process_pdf V fuel raw pdf max_chunk_chars = Some (Raises e))
  \/
  (exists cs,
     process_pdf V fuel raw pdf max_chunk_chars = Some (Returns cs) /\
     Forall (fun c => text c <> [] /\ embedding c = None) cs).
Proof.
  intros Hm Hraw. unfold process_pdf.
  pose proof (@extract_pages_texts fuel raw 1 Hraw) as Hpages.
  fold (extract_text_from_pdf raw) in Hpages.
  destruct (extract_text_from_pdf raw) as [|pg pages] eqn:E.
  - left. split; [reflexivity|]. eauto.
  - right.
    destruct (@process_pages_nonempty V fuel pdf max_chunk_chars Hm (pg :: pages) [])
      as [cs [Hcs Hall]]; [assumption | constructor |].
    rewrite Hcs. eauto.
Qed.

Lemma chunk_records_not_empty_witness :
  (extract_text_from_pdf [Some example_text] = [] /\
   exists e, process_pdf unit 12 [Some example_text] "a.pdf" 5
             = Some (Raises e))
  \/
  (exists cs,
     process_pdf unit 12 [Some example_text] "a.pdf" 5 = Some (Returns cs) /\
     Forall (fun c => text c <> [] /\ embedding c = None) cs).
Proof.
  apply (@chunk_records_not_empty unit 12 [Some example_text] "a.pdf" 5).
  - lia.
  - constructor; [|constructor]. intros s [= <-]. simpl. lia.
Defined.

(** C6 as stated fails: with the default sizes, the second chunk of
    [spaced_page] is 800 spaces. *)
Lemma whitespace_only_chunk :
  strip spaced_page = spaced_page /\
  exists cs c,
    process_pdf unit 2000 [Some spaced_page] "a.pdf" 800 = Some (Returns cs) /\
    nth_error cs 1 = Some c /\
    text c = repeat 32%N 800 /\
    blank (text c) = true.
Proof.
  split; [vm_compute; reflexivity|].
  eexists. eexists. split; [vm_compute; reflexivity|].
  split; [reflexivity|]. split; vm_compute; reflexivity.
Qed.

(** ** The order of binary64 numbers *)

Lemma SFcompare_antisym x y :
  SFcompare y x = option_map CompOpp (SFcompare x y).
Proof.
  destruct x as [sx|sx| |sx mx ex], y as [sy|sy| |sy my ey]; simpl;
    try reflexivity; try (destruct sx; reflexivity); try (destruct sy; reflexivity);
    try (destruct sx, sy; reflexivity).
  destruct sx, sy; simpl; try reflexivity.
  - rewrite (Z.compare_antisym ex ey).
    destruct (ex ?= ey)%Z; simpl; try reflexivity.
    change (Pos.compare_cont Eq my mx) with (Pos.compare my mx).
    change (Pos.compare_cont Eq mx my) with (Pos.compare mx my).
    now rewrite (Pos.compare_antisym mx my).
  - rewrite (Z.compare_antisym ex ey).
    destruct (ex ?= ey)%Z; simpl; try reflexivity.
    change (Pos.compare_cont Eq my mx) with (Pos.compare my mx).
    change (Pos.compare_cont Eq mx my) with (Pos.compare mx my).
    now rewrite (Pos.compare_antisym mx my).
Qed.

Lemma SFcompare_finite_eq sx mx ex sy my ey :
  SFcompare (S754_finite sx mx ex) (S754_finite sy my ey) = Some Eq ->
  sx = sy /\ mx = my /\ ex = ey.
Proof.
  simpl. destruct sx, sy; try discriminate;
    destruct (Z.compare_spec ex ey) as [He|He|He]; try discriminate; subst;
    change (Pos.compare_cont Eq mx my) with (Pos.compare mx my);
    destruct (Pos.compare_spec mx my); try discriminate; subst; auto.
Qed.

Lemma SFcompare_refl_finite s m e :
  SFcompare (S754_finite s m e) (S754_finite s m e) = Some Eq.
Proof.
  simpl. rewrite Z.compare_refl.
  change (Pos.compare_cont Eq m m) with (Pos.compare m m).
  rewrite Pos.compare_refl. now destruct s.
Qed.

Lemma SFcompare_eq_trans x y k :
  SFcompare x k = Some Eq -> SFcompare y k = Some Eq -> SFcompare x y = Some Eq.
Proof.
  destruct x as [sx|sx| |sx mx ex], k as [sk|sk| |sk mk ek];
    try discriminate;
    try (simpl; destruct sx; discriminate);
    try (simpl; destruct sk; discriminate);
  destruct y as [sy|sy| |sy my ey];
    try discriminate;
    try (simpl; destruct sy; discriminate);
    try (simpl; destruct sk; discriminate).
  - reflexivity.
  - simpl. destruct sx, sk, sy; try discriminate; reflexivity.
  - intros H1 H2.
    apply SFcompare_finite_eq in H1 as [-> [-> ->]].
    apply SFcompare_finite_eq in H2 as [-> [-> ->]].
    apply SFcompare_refl_finite.
Qed.

Lemma SFleb_trans x y z :
  SFleb x y = true -> SFleb y z = true -> SFleb x z = true.
Proof.
  unfold SFleb.
  destruct x as [sx|sx| |sx mx ex], y as [sy|sy| |sy my ey];
    try discriminate;
    destruct z as [sz|sz| |sz mz ez]; try discriminate;
    try (destruct sx, sy, sz; simpl; intros; (discriminate || reflexivity)).
  simpl.
    change (Pos.compare_cont Eq mx my) with (Pos.compare mx my).
    change (Pos.compare_cont Eq my mz) with (Pos.compare my mz).
    change (Pos.compare_cont Eq mx mz) with (Pos.compare mx mz).
    destruct sx, sy, sz; try discriminate; try reflexivity;
      destruct (Z.compare_spec ex ey), (Z.compare_spec ey ez),
               (Z.compare_spec ex ez); subst;
      try discriminate; try reflexivity; try lia;
      destruct (Pos.compare_spec mx my), (Pos.compare_spec my mz),
               (Pos.compare_spec mx mz); subst; simpl;
      try discriminate; try reflexivity; try lia.
Qed.

Lemma SFcompare_defined t x y c c' :
  SFcompare t x = Some c -> SFcompare t y = Some c' ->
  exists c'', SFcompare x y = Some c''.
Proof.
  destruct t, x; try discriminate; destruct y; try discriminate; simpl; eauto.
Qed.

Local Open Scope float_scope.

Lemma ltb_leb x y : (x <? y) = true -> (x <=? y) = true.
Proof.
  rewrite ltb_spec, leb_spec. unfold SFltb, SFleb.
  destruct (SFcompare (Prim2SF x) (Prim2SF y)) as [[]|]; try discriminate; reflexivity.
Qed.

Lemma not_ltb_leb t x y :
  (t <=? x) = true -> (t <=? y) = true -> (x <? y) = false -> (y <=? x) = true.
Proof.
  rewrite ltb_spec, !leb_spec. unfold SFltb, SFleb.
  intros Hx Hy.
  destruct (SFcompare (Prim2SF t) (Prim2SF x)) as [cx|] eqn:Ex; [|discriminate].
  destruct (SFcompare (Prim2SF t) (Prim2SF y)) as [cy|] eqn:Ey; [|discriminate].
  destruct (SFcompare_defined _ _ _ Ex Ey) as [c Ec].
  rewrite (SFcompare_antisym (Prim2SF x) (Prim2SF y)), Ec.
  destruct c; simpl; (discriminate || reflexivity).
Qed.

Lemma ltb_not_tied x y k :
  (x <? y) = true -> (x =? k) = true -> (y =? k) = true -> False.
Proof.
  rewrite ltb_spec, !eqb_spec. unfold SFltb, SFeqb.
  intros Hlt Hx Hy.
  destruct (SFcompare (Prim2SF x) (Prim2SF k)) as [[]|] eqn:Ex; try discriminate.
  destruct (SFcompare (Prim2SF y) (Prim2SF k)) as [[]|] eqn:Ey; try discriminate.
  rewrite (SFcompare_eq_trans _ _ _ Ex Ey) in Hlt. discriminate.
Qed.

Lemma leb_trans x y z :
  (x <=? y) = true -> (y <=? z) = true -> (x <=? z) = true.
Proof. rewrite !leb_spec. apply SFleb_trans. Qed.

Lemma float_mul_comm x y : x * y = y * x.
Proof.
  apply Prim2SF_inj. rewrite !mul_spec.
  destruct (Prim2SF x) as [sx|sx| |sx mx ex], (Prim2SF y) as [sy|sy| |sy my ey];
    simpl; try reflexivity; rewrite ?(xorb_comm sx sy); try reflexivity.
  now rewrite Pos.mul_comm, Z.add_comm.
Qed.

(** ** Cosine similarity *)

Lemma products_comm (a : vector) : forall b : vector,
  map (fun p => fst p * snd p) (combine a b) =
  map (fun p => fst p * snd p) (combine b a).
Proof.
  induction a as [|x a IH]; intros [|y b]; simpl; try reflexivity.
  now rewrite IH, float_mul_comm.
Qed.

Lemma sum_products_comm a b : sum_products a b = sum_products b a.
Proof. unfold sum_products. now rewrite products_comm. Qed.

Lemma np_dot_comm a b : np_dot a b = np_dot b a.
Proof.
  unfold np_dot. rewrite (Nat.eqb_sym (length a) (length b)).
  now rewrite sum_products_comm.
Qed.

(** C10. The similarity of [vec1] to [vec2] is the similarity of [vec2] to
    [vec1]: the same number, the same fallback [0.0] when a norm is zero,
    and the same error when the dimensions differ. *)
Theorem cosine_symmetric vec1 vec2 :
  calculate_cosine_similarity vec1 vec2 = calculate_cosine_similarity vec2 vec1.
Proof.
  unfold calculate_cosine_similarity.
  rewrite (orb_comm (np_linalg_norm vec1 =? 0)).
  rewrite (np_dot_comm vec1 vec2).
  now rewrite (float_mul_comm (np_linalg_norm vec1)).
Qed.

(** A zero norm on either side gives [0.0], whatever the other vector is. *)
Lemma cosine_zero_norm vec1 vec2 :
  (np_linalg_norm vec1 =? 0) = true \/ (np_linalg_norm vec2 =? 0) = true ->
  calculate_cosine_similarity vec1 vec2 = Returns 0.
Proof.
  intros H. unfold calculate_cosine_similarity.
  assert (E : (np_linalg_norm vec1 =? 0) || (np_linalg_norm vec2 =? 0) = true).
  { apply orb_true_iff. exact H. }
  now rewrite E.
Qed.

(** Otherwise the dot product is divided by the product of the norms. *)
Lemma cosine_quotient vec1 vec2 :
  length vec1 = length vec2 ->
  (np_linalg_norm vec1 =? 0) = false -> (np_linalg_norm vec2 =? 0) = false ->
  calculate_cosine_similarity vec1 vec2 =
  Returns (sum_products vec1 vec2 / (np_linalg_norm vec1 * np_linalg_norm vec2)).
Proof.
  intros Hlen H1 H2. unfold calculate_cosine_similarity, np_dot.
  rewrite H1, H2, Hlen, Nat.eqb_refl. reflexivity.
Qed.

(** Vectors of one dimension never make the call raise. *)
Lemma cosine_returns vec1 vec2 :
  length vec1 = length vec2 ->
  exists sim, calculate_cosine_similarity vec1 vec2 = Returns sim.
Proof.
  intros Hlen. unfold calculate_cosine_similarity, np_dot.
  rewrite Hlen, Nat.eqb_refl.
  destruct ((np_linalg_norm vec1 =? 0) || (np_linalg_norm vec2 =? 0)); simpl; eauto.
Qed.

(** C7 fails on [[1.0, 1.0, 1.0]] against itself: the dot product is [3],
    the norm is the double nearest to the square root of [3], whose square
    rounds below [3], and the quotient is the double above [1]. *)
Theorem cosine_above_one :
  calculate_cosine_similarity [1; 1; 1] [1; 1; 1] = Returns 0x1.0000000000001p+0 /\
  (0x1.0000000000001p+0 <=? 1) = false /\
  (0x1.0000000000001p+0 =? 1) = false.
Proof. repeat split; vm_compute; reflexivity. Qed.

(** Squares that overflow give a result that is not a number, and squares
    that underflow give [0.0] for a vector that is not zero. *)
Lemma cosine_overflow :
  calculate_cosine_similarity [0x1p+600] [0x1p+600] = Returns nan.
Proof. vm_compute. reflexivity. Qed.

Lemma cosine_underflow :
  calculate_cosine_similarity [0x1p-600] [0x1p-600] = Returns 0.
Proof. vm_compute. reflexivity. Qed.

(** ** The search *)

Lemma slice_prefix {A} (l : list A) k :
  (0 <= k)%Z -> slice l 0 k = firstn (Z.to_nat k) l.
Proof.
  intros Hk. unfold slice.
  pose proof (len_nonneg l) as Hn.
  rewrite (adjust_id (n := len l) (i := 0%Z)) by lia.
  simpl skipn. unfold adjust.
  destruct (Z.ltb_spec k 0); [lia|].
  rewrite Z.sub_0_r.
  destruct (Z.le_gt_cases k (len l)) as [Hle|Hgt].
  - now rewrite Z.min_l by lia.
  - rewrite Z.min_r by lia.
    unfold len in *. rewrite !firstn_all2 by lia. reflexivity.
Qed.

(** The loop returns the results of the qualifying chunks in scan order. *)
Lemma scan_chunks_retained q threshold : forall chunks results,
  well_dimensioned q chunks ->
  scan_chunks q threshold chunks results =
  Returns (results ++ retained q threshold chunks).
Proof.
  induction chunks as [|c rest IH]; intros results Hdim; simpl.
  - now rewrite app_nil_r.
  - inversion Hdim as [|? ? Hc Hrest]; subst.
    unfold qualifying.
    destruct (PdfUtils.embedding c) as [e|] eqn:Ee; [|now apply IH].
    destruct (@cosine_returns q e) as [sim Hsim]; [symmetry; now apply Hc|].
    rewrite Hsim. simpl.
    destruct (threshold <=? sim).
    + rewrite IH by assumption. now rewrite <- app_assoc.
    + now apply IH.
Qed.

Lemma retained_above q threshold chunks :
  Forall (fun r => (threshold <=? similarity r) = true) (retained q threshold chunks).
Proof.
  induction chunks as [|c rest IH]; simpl; [constructor|].
  unfold qualifying.
  destruct (PdfUtils.embedding c) as [e|]; [|assumption].
  destruct (calculate_cosine_similarity q e) as [sim|]; [|assumption].
  destruct (threshold <=? sim) eqn:E; [|assumption].
  constructor; assumption.
Qed.

Lemma retained_length q threshold chunks :
  length (retained q threshold chunks) = length (filter (qualifies q threshold) chunks).
Proof.
  induction chunks as [|c rest IH]; simpl; [reflexivity|].
  unfold qualifies. destruct (qualifying q threshold c); simpl; now rewrite IH.
Qed.

Lemma retained_complete q threshold chunks c e sim :
  In c chunks -> PdfUtils.embedding c = Some e ->
  calculate_cosine_similarity q e = Returns sim -> (threshold <=? sim) = true ->
  In (result_of c sim) (retained q threshold chunks).
Proof.
  intros Hin He Hsim Hth. induction chunks as [|c' rest IH]; simpl; [contradiction|].
  destruct Hin as [-> | Hin].
  - unfold qualifying. rewrite He, Hsim, Hth. now left.
  - destruct (qualifying q threshold c'); [right|]; now apply IH.
Qed.

Lemma retained_sound q threshold chunks r :
  In r (retained q threshold chunks) ->
  exists c e, In c chunks /\ PdfUtils.embedding c = Some e /\
              calculate_cosine_similarity q e = Returns (similarity r) /\
              r = result_of c (similarity r).
Proof.
  induction chunks as [|c' rest IH]; simpl; [contradiction|].
  unfold qualifying at 1.
  destruct (PdfUtils.embedding c') as [e|] eqn:Ee.
  - destruct (calculate_cosine_similarity q e) as [sim|] eqn:Es.
    + destruct (threshold <=? sim).
      * intros [<- | Hin].
        -- exists c', e. simpl. auto.
        -- destruct (IH Hin) as [c [v [H1 H2]]]. exists c, v. auto.
      * intros Hin. destruct (IH Hin) as [c [v [H1 H2]]]. exists c, v. auto.
    + intros Hin. destruct (IH Hin) as [c [v [H1 H2]]]. exists c, v. auto.
  - intros Hin. destruct (IH Hin) as [c [v [H1 H2]]]. exists c, v. auto.
Qed.

Lemma insert_desc_perm x sorted : Permutation (insert_desc x sorted) (x :: sorted).
Proof.
  induction sorted as [|y sorted IH]; simpl; [reflexivity|].
  destruct (similarity x <? similarity y); [|reflexivity].
  rewrite IH. apply perm_swap.
Qed.

Lemma sort_desc_perm results : Permutation (sort_desc results) results.
Proof.
  induction results as [|x results IH]; simpl; [reflexivity|].
  rewrite insert_desc_perm. now apply perm_skip.
Qed.

Lemma insert_desc_sorted threshold x sorted :
  (threshold <=? similarity x) = true ->
  Forall (fun r => (threshold <=? similarity r) = true) sorted ->
  Sorted not_above sorted -> Sorted not_above (insert_desc x sorted).
Proof.
  intros Hx Hall Hs. induction Hs as [|y sorted Hs IH Hhd]; simpl.
  - repeat constructor.
  - inversion Hall as [|? ? Hy Hrest]; subst.
    destruct (similarity x <? similarity y) eqn:E.
    + constructor; [now apply IH|].
      destruct Hhd as [|z sorted Hz]; simpl.
      * constructor. unfold not_above. now apply ltb_leb.
      * destruct (similarity x <? similarity z).
        -- now constructor.
        -- constructor. unfold not_above. now apply ltb_leb.
    + constructor; [now constructor|].
      constructor. unfold not_above.
      eapply not_ltb_leb; eassumption.
Qed.

Lemma sort_desc_sorted threshold results :
  Forall (fun r => (threshold <=? similarity r) = true) results ->
  Sorted not_above (sort_desc results).
Proof.
  induction 1 as [|x results Hx Hall IH]; simpl; [constructor|].
  eapply insert_desc_sorted; try eassumption.
  eapply Permutation_Forall; [|exact Hall].
  symmetry. apply sort_desc_perm.
Qed.

(** Sorting keeps results of equal similarity in their order. *)
Lemma insert_desc_stable k x sorted :
  filter (tied k) (insert_desc x sorted) = filter (tied k) (x :: sorted).
Proof.
  induction sorted as [|y sorted IH]; [reflexivity|].
  simpl insert_desc.
  destruct (similarity x <? similarity y) eqn:E; [|reflexivity].
  cbn [filter]. rewrite IH. cbn [filter].
  destruct (tied k y) eqn:Ey, (tied k x) eqn:Ex; try reflexivity.
  exfalso. unfold tied in Ey, Ex. eapply ltb_not_tied; eassumption.
Qed.

Lemma sort_desc_stable k results :
  filter (tied k) (sort_desc results) = filter (tied k) results.
Proof.
  induction results as [|x results IH]; [reflexivity|].
  simpl sort_desc. rewrite insert_desc_stable. simpl. now rewrite IH.
Qed.

Lemma firstn_Forall {A} (P : A -> Prop) n : forall l,
  Forall P l -> Forall P (firstn n l).
Proof.
  induction n as [|n IH]; intros l H; simpl; [constructor|].
  destruct H; constructor; auto.
Qed.

Lemma firstn_StronglySorted {A} (R : A -> A -> Prop) n : forall l,
  StronglySorted R l -> StronglySorted R (firstn n l).
Proof.
  induction n as [|n IH]; intros l Hs; simpl; [constructor|].
  destruct Hs as [|x l Hs Hall]; [constructor|].
  constructor; [now apply IH | now apply firstn_Forall].
Qed.

Lemma not_above_trans a b c : not_above a b -> not_above b c -> not_above a c.
Proof.
  unfold not_above. intros Hab Hbc. eapply leb_trans; eassumption.
Qed.

(** The sorted list is non-increasing between any two positions. *)
Lemma sort_desc_strongly_sorted threshold results :
  Forall (fun r => (threshold <=? similarity r) = true) results ->
  StronglySorted not_above (sort_desc results).
Proof.
  intros Hall. apply Sorted_StronglySorted.
  - intros a b c. apply not_above_trans.
  - now apply sort_desc_sorted with (threshold := threshold).
Qed.

(** What [search_similar_chunks] returns on a well-dimensioned collection. *)
Lemma search_returns create_embedding query chunks top_k threshold :
  (0 <= top_k)%Z ->
  well_dimensioned (create_embedding query) chunks ->
  search_similar_chunks create_embedding query chunks top_k threshold =
  Returns (firstn (Z.to_nat top_k)
             (sort_desc (retained (create_embedding query) threshold chunks))).
Proof.
  intros Hk Hdim. unfold search_similar_chunks.
  rewrite scan_chunks_retained by assumption.
  simpl. now rewrite slice_prefix.
Qed.

Lemma In_firstn {A} (x : A) n l : In x (firstn n l) -> In x l.
Proof.
  intros H. rewrite <- (firstn_skipn n l). apply in_or_app. now left.
Qed.

Lemma retained_none q threshold chunks :
  Forall (fun c => qualifies q threshold c = false) chunks ->
  retained q threshold chunks = [].
Proof.
  induction 1 as [|c rest Hc _ IH]; simpl; [reflexivity|].
  unfold qualifies in Hc. destruct (qualifying q threshold c); [discriminate|].
  exact IH.
Qed.

(** A chunk qualifies when its vector is set and its similarity to the
    query vector is at least the threshold. *)
Lemma qualifies_iff q threshold c :
  qualifies q threshold c = true <->
  exists e sim, PdfUtils.embedding c = Some e /\
                calculate_cosine_similarity q e = Returns sim /\
                (threshold <=? sim) = true.
Proof.
  unfold qualifies, qualifying. split.
  - destruct (PdfUtils.embedding c) as [e|]; [|discriminate].
    destruct (calculate_cosine_similarity q e) as [sim|] eqn:Es; [|discriminate].
    destruct (threshold <=? sim) eqn:E; [|discriminate].
    intros _. exists e, sim. auto.
  - intros [e [sim [-> [-> ->]]]]. reflexivity.
Qed.

(** C1. On a collection whose vectors have the dimension of the query
    vector, and for [top_k >= 1], the search returns; it returns at most
    [top_k] results; each result is a chunk of the collection with its
    similarity to the query vector, which is at least the threshold; no
    result has a higher similarity than a result before it; they are the first
    [top_k] of a rearrangement of the qualifying results that is sorted and
    keeps results of equal similarity in scan order; and when no chunk
    qualifies the result is the empty list. *)
Theorem search_contract create_embedding query chunks top_k threshold :
  (1 <= top_k)%Z ->
  well_dimensioned (create_embedding query) chunks ->
  exists results,
    search_similar_chunks create_embedding query chunks top_k threshold
      = Returns results /\
    (len results <= top_k)%Z /\
    Forall (fun r => exists c e,
              In c chunks /\ PdfUtils.embedding c = Some e /\
              calculate_cosine_similarity (create_embedding query) e
                = Returns (similarity r) /\
              r = result_of c (similarity r) /\
              (threshold <=? similarity r) = true) results /\
    StronglySorted not_above results /\
    (exists sorted,
        results = firstn (Z.to_nat top_k) sorted /\
        Permutation sorted (retained (create_embedding query) threshold chunks) /\
        StronglySorted not_above sorted /\
        forall k, filter (tied k) sorted =
                  filter (tied k) (retained (create_embedding query) threshold chunks)) /\
    (Forall (fun c => qualifies (create_embedding query) threshold c = false) chunks ->
     results = []).
Proof.
  intros Hk Hdim.
  rewrite search_returns by (assumption || lia).
  set (q := create_embedding query).
  pose proof (retained_above q threshold chunks) as Habove.
  pose proof (sort_desc_strongly_sorted Habove) as Hsorted.
  eexists. split; [reflexivity|]. split; [|split; [|split; [|split]]].
  - unfold len. rewrite length_firstn. lia.
  - apply Forall_forall. intros r Hin.
    apply In_firstn in Hin.
    apply (Permutation_in _ (sort_desc_perm _)) in Hin.
    destruct (retained_sound _ _ _ _ Hin) as [c [e [Hc [He [Hsim Hr]]]]].
    exists c, e. repeat split; try assumption.
    rewrite Forall_forall in Habove. now apply Habove.
  - now apply firstn_StronglySorted.
  - exists (sort_desc (retained q threshold chunks)).
    split; [reflexivity|]. split; [apply sort_desc_perm|].
    split; [assumption|]. intros k. apply sort_desc_stable.
  - intros Hnone. rewrite retained_none by assumption. simpl. apply firstn_nil.
Qed.

(** C9. Under the same conditions the search returns exactly
    [min(top_k, m)] results, [m] being the number of qualifying chunks; every
    result comes from a chunk whose vector is set; and when [m <= top_k] the
    results are all the qualifying results. *)
Theorem search_count create_embedding query chunks top_k threshold :
  (1 <= top_k)%Z ->
  well_dimensioned (create_embedding query) chunks ->
  exists results,
    search_similar_chunks create_embedding query chunks top_k threshold
      = Returns results /\
    len results =
      Z.min top_k (len (filter (qualifies (create_embedding query) threshold) chunks)) /\
    (forall r, In r results ->
       exists c e, In c chunks /\ PdfUtils.embedding c = Some e /\
                   r = result_of c (similarity r)) /\
    ((len (filter (qualifies (create_embedding query) threshold) chunks) <= top_k)%Z ->
     Permutation results (retained (create_embedding query) threshold chunks) /\
     forall c e sim,
       In c chunks -> PdfUtils.embedding c = Some e ->
       calculate_cosine_similarity (create_embedding query) e = Returns sim ->
       (threshold <=? sim) = true ->
       In (result_of c sim) results).
Proof.
  intros Hk Hdim.
  rewrite search_returns by (assumption || lia).
  set (q := create_embedding query).
  eexists. split; [reflexivity|]. split; [|split].
  - unfold len. rewrite length_firstn.
    rewrite (Permutation_length (sort_desc_perm _)), retained_length. lia.
  - intros r Hin. apply In_firstn in Hin.
    apply (Permutation_in _ (sort_desc_perm _)) in Hin.
    destruct (retained_sound _ _ _ _ Hin) as [c [e [Hc [He [_ Hr]]]]].
    exists c, e. auto.
  - intros Hm.
    assert (Hall : firstn (Z.to_nat top_k) (sort_desc (retained q threshold chunks))
                   = sort_desc (retained q threshold chunks)).
    { apply firstn_all2.
      rewrite (Permutation_length (sort_desc_perm _)), retained_length.
      unfold len in Hm. lia. }
    rewrite Hall. split; [apply sort_desc_perm|].
    intros c e sim Hc He Hsim Hth.
    apply (Permutation_in _ (Permutation_sym (sort_desc_perm _))).
    eapply retained_complete; eassumption.
Qed.

Lemma scenario_well_dimensioned :
  well_dimensioned (scenario_embedding []) scenario_chunks.
Proof.
  repeat constructor; simpl; intros e [= <-]; reflexivity.
Qed.

Lemma search_contract_witness :
  exists results,
    search_similar_chunks scenario_embedding [] scenario_chunks 2 0.5
      = Returns results /\
    (len results <= 2)%Z /\
    Forall (fun r => exists c e,
              In c scenario_chunks /\ PdfUtils.embedding c = Some e /\
              calculate_cosine_similarity (scenario_embedding []) e
                = Returns (similarity r) /\
              r = result_of c (similarity r) /\
              (0.5 <=? similarity r) = true) results /\
    StronglySorted not_above results /\
    (exists sorted,
        results = firstn (Z.to_nat 2) sorted /\
        Permutation sorted (retained (scenario_embedding []) 0.5 scenario_chunks) /\
        StronglySorted not_above sorted /\
        forall k, filter (tied k) sorted =
                  filter (tied k) (retained (scenario_embedding []) 0.5 scenario_chunks)) /\
    (Forall (fun c => qualifies (scenario_embedding []) 0.5 c = false) scenario_chunks ->
     results = []).
Proof.
  apply (@search_contract scenario_embedding [] scenario_chunks 2 0.5).
  - lia.
  - exact scenario_well_dimensioned.
Defined.

Lemma search_count_witness :
  exists results,
    search_similar_chunks scenario_embedding [] scenario_chunks 2 0.5
      = Returns results /\
    len results =
      Z.min 2 (len (filter (qualifies (scenario_embedding []) 0.5) scenario_chunks)) /\
    (forall r, In r results ->
       exists c e, In c scenario_chunks /\ PdfUtils.embedding c = Some e /\
                   r = result_of c (similarity r)) /\
    ((len (filter (qualifies (scenario_embedding []) 0.5) scenario_chunks) <= 2)%Z ->
     Permutation results (retained (scenario_embedding []) 0.5 scenario_chunks) /\
     forall c e sim,
       In c scenario_chunks -> PdfUtils.embedding c = Some e ->
       calculate_cosine_similarity (scenario_embedding []) e = Returns sim ->
       (0.5 <=? sim) = true ->
       In (result_of c sim) results).
Proof.
  apply (@search_count scenario_embedding [] scenario_chunks 2 0.5).
  - lia.
  - exact scenario_well_dimensioned.
Defined.

(** The scenario evaluated: the first chunk with similarity [1.0], then the
    third; the second is below the threshold and the fourth is skipped. *)
Example scenario_search :
  search_similar_chunks scenario_embedding [] scenario_chunks 2 0.5 =
  Returns [ mkResult "a.pdf" 1 [97%N] 1;
            mkResult "a.pdf" 2 [99%N] 0x1.fcde5430e6296p-1 ].
Proof. vm_compute. reflexivity. Qed.

(** A vector of another dimension makes [np.dot], and with it the search,
    raise: the collection has to be well-dimensioned. *)
Example mismatched_dimension_raises :
  search_similar_chunks scenario_embedding []
    [PdfUtils.mkChunk "a.pdf" 1%Z [97%N] (Some [1; 0; 0])] 2 0.5
  = Raises ValueError.
Proof. vm_compute. reflexivity. Qed.

(** ** [extract_text_from_pdf]: which pages are kept *)

Local Open Scope Z_scope.

Lemma lstrip_nil_iff s : lstrip s = [] <-> blank s = true.
Proof.
  unfold blank. induction s as [|c s IH]; simpl.
  - tauto.
  - destruct (isspace c); simpl; [exact IH|]. split; discriminate.
Qed.

Lemma lstrip_head s c r : lstrip s = c :: r -> isspace c = false.
Proof.
  induction s as [|x s IH]; simpl; [discriminate|].
  destruct (isspace x) eqn:E; [exact IH|]. now intros [= <- _].
Qed.

Lemma lstrip_fixed c r : isspace c = false -> lstrip (c :: r) = c :: r.
Proof. intros E. simpl. now rewrite E. Qed.

Lemma lstrip_idem s : lstrip (lstrip s) = lstrip s.
Proof.
  destruct (lstrip s) as [|c r] eqn:E; [reflexivity|].
  apply lstrip_fixed. eapply lstrip_head; eassumption.
Qed.

Lemma lstrip_app_last l c :
  isspace c = false -> lstrip (l ++ [c]) = lstrip l ++ [c].
Proof.
  intros E. induction l as [|x l IH]; simpl.
  - now rewrite E.
  - destruct (isspace x); [exact IH | reflexivity].
Qed.

(** The shape of a stripped text that is not empty. *)
Lemma strip_cons s c a :
  lstrip s = c :: a -> strip s = c :: rev (lstrip (rev a)).
Proof.
  intros E. unfold strip. rewrite E. simpl rev.
  rewrite lstrip_app_last by (eapply lstrip_head; eassumption).
  rewrite rev_app_distr. reflexivity.
Qed.

Lemma strip_nil_iff s : strip s = [] <-> blank s = true.
Proof.
  rewrite <- lstrip_nil_iff. split.
  - intros E. destruct (lstrip s) as [|c a] eqn:El; [reflexivity|].
    rewrite (strip_cons _ El) in E. discriminate.
  - intros E. unfold strip. now rewrite E.
Qed.

Lemma strip_idem s : strip (strip s) = strip s.
Proof.
  destruct (lstrip s) as [|c a] eqn:El.
  - unfold strip. rewrite El. reflexivity.
  - pose proof (lstrip_head _ El) as Hc.
    rewrite (strip_cons _ El).
    rewrite (@strip_cons (c :: rev (lstrip (rev a))) c (rev (lstrip (rev a))))
      by now apply lstrip_fixed.
    now rewrite rev_involutive, lstrip_idem.
Qed.

(** A stripped text that is not empty starts and ends with characters that
    are not whitespace. *)
Lemma strip_ends s c r :
  strip s = c :: r -> isspace c = false /\ isspace (last (c :: r) c) = false.
Proof.
  intros E.
  destruct (lstrip s) as [|c0 a] eqn:El.
  - unfold strip in E. rewrite El in E. discriminate.
  - rewrite (strip_cons _ El) in E. injection E as <- <-.
    split; [eapply lstrip_head; eassumption|].
    destruct (lstrip (rev a)) as [|x b] eqn:Eb.
    + simpl. eapply lstrip_head; eassumption.
    + change (c0 :: rev (x :: b)) with ([c0] ++ rev (x :: b)).
      simpl rev. rewrite app_assoc, last_last.
      eapply lstrip_head; eassumption.
Qed.

Lemma extract_pages_In raw : forall page_num pg,
  In pg (extract_pages page_num raw) <->
  exists i t, nth_error raw i = Some (Some t) /\ strip t <> [] /\
              pg = mkPage (page_num + Z.of_nat i) (strip t).
Proof.
  induction raw as [|t raw IH]; intros page_num pg; simpl.
  - split; [contradiction|]. intros [i [t [H _]]]. now destruct i.
  - assert (Hrest : In pg (extract_pages (page_num + 1) raw) <->
                    exists i t0, nth_error (t :: raw) (S i) = Some (Some t0) /\
                                 strip t0 <> [] /\
                                 pg = mkPage (page_num + Z.of_nat (S i)) (strip t0)).
    { rewrite IH. split; intros [i [t0 [H1 [H2 H3]]]]; exists i, t0;
        (split; [exact H1|]; split; [exact H2|]);
        rewrite H3; f_equal; lia. }
    assert (Hskip : (forall t0, t = Some t0 -> strip t0 = []) ->
                    (In pg (extract_pages (page_num + 1) raw) <->
                     exists i t0, nth_error (t :: raw) i = Some (Some t0) /\
                                  strip t0 <> [] /\
                                  pg = mkPage (page_num + Z.of_nat i) (strip t0))).
    { intros Hblank. rewrite Hrest. split.
      - intros [i H]. exists (S i). exact H.
      - intros [[|i] [t0 [H1 [H2 H3]]]].
        + simpl in H1. injection H1 as ->. now specialize (Hblank _ eq_refl).
        + exists i, t0. auto. }
    destruct t as [s|]; [|apply Hskip; discriminate].
    destruct s as [|c s]; [apply Hskip; now intros t0 [= <-]|].
    destruct (strip (c :: s)) as [|c' s'] eqn:E;
      [apply Hskip; now intros t0 [= <-]|].
    simpl. rewrite Hrest. split.
    + intros [<- | [i H]].
      * exists 0%nat, (c :: s). simpl. rewrite E. repeat split.
        -- discriminate.
        -- f_equal. lia.
      * exists (S i). exact H.
    + intros [[|i] [t0 [H1 [H2 H3]]]].
      * left. simpl in H1. injection H1 as <-. rewrite H3, E. f_equal. lia.
      * right. exists i, t0. auto.
Qed.

Lemma extract_pages_numbers raw : forall page_num,
  Forall (fun pg => page_num <= pg_number pg) (extract_pages page_num raw).
Proof.
  intros page_num. apply Forall_forall. intros pg Hin.
  apply extract_pages_In in Hin as [i [t [_ [_ ->]]]]. simpl. lia.
Qed.

Lemma extract_pages_increasing raw : forall page_num,
  StronglySorted (fun a b => pg_number a < pg_number b)
                 (extract_pages page_num raw).
Proof.
  induction raw as [|t raw IH]; intros page_num; simpl; [constructor|].
  destruct t as [s|]; [|apply IH].
  destruct s as [|c s]; [apply IH|].
  destruct (strip (c :: s)); [apply IH|].
  constructor; [apply IH|].
  eapply Forall_impl; [|apply extract_pages_numbers].
  simpl. intros pg Hpg. lia.
Qed.

Lemma extracted_pages_stripped_aux raw :
  Forall (fun pg => pg_text pg <> []) (extract_text_from_pdf raw).
Proof.
  apply Forall_forall. intros pg Hin.
  apply extract_pages_In in Hin as [i [t [_ [Hne ->]]]]. exact Hne.
Qed.

(** X1. [extract_text_from_pdf] keeps exactly the pages whose text is there
    and not blank; a kept page carries the stripped text and the 1-based
    position of the page in the document, and the kept pages are in
    increasing order of page number. *)
Theorem extracted_pages raw :
  (forall pg,
      In pg (extract_text_from_pdf raw) <->
      exists i t, nth_error raw i = Some (Some t) /\ blank t = false /\
                  pg = mkPage (Z.of_nat i + 1) (strip t))
  /\ StronglySorted (fun a b => pg_number a < pg_number b)
                    (extract_text_from_pdf raw).
Proof.
  split; [|apply extract_pages_increasing].
  intros pg. unfold extract_text_from_pdf. rewrite extract_pages_In.
  split; intros [i [t [H1 [H2 H3]]]]; exists i, t;
    (split; [exact H1|]); (split; [|rewrite H3; f_equal; lia]).
  - destruct (blank t) eqn:E; [|reflexivity].
    exfalso. apply H2. now apply strip_nil_iff.
  - intros E. apply strip_nil_iff in E. congruence.
Qed.

(** X2. The text of a kept page is not empty, is unchanged by stripping it
    again, and starts and ends with characters that are not whitespace. *)
Theorem extracted_pages_stripped raw :
  Forall (fun pg =>
            strip (pg_text pg) = pg_text pg /\
            exists c r, pg_text pg = c :: r /\ isspace c = false /\
                        isspace (last (pg_text pg) c) = false)
         (extract_text_from_pdf raw).
Proof.
  apply Forall_forall. intros pg Hin.
  apply extract_pages_In in Hin as [i [t [_ [Hne ->]]]]. simpl.
  split; [apply strip_idem|].
  destruct (strip t) as [|c r] eqn:E; [congruence|].
  exists c, r. split; [reflexivity|]. now apply strip_ends with (s := t).
Qed.

(** ** [process_pdf]: errors and the order of the records *)

Lemma extract_nil_iff raw :
  extract_text_from_pdf raw = [] <->
  Forall (fun t => forall s, t = Some s -> blank s = true) raw.
Proof.
  split.
  - intros E. apply Forall_forall. intros t Hin s ->.
    destruct (blank s) eqn:Eb; [reflexivity|]. exfalso.
    apply In_nth_error in Hin as [i Hi].
    assert (Hpg : In (mkPage (1 + Z.of_nat i) (strip s)) (extract_text_from_pdf raw)).
    { apply extract_pages_In. exists i, s. repeat split; [assumption|].
      intros Es. apply strip_nil_iff in Es. congruence. }
    rewrite E in Hpg. contradiction.
  - intros Hall. destruct (extract_text_from_pdf raw) as [|pg pages] eqn:E;
      [reflexivity|]. exfalso.
    assert (Hpg : In pg (extract_text_from_pdf raw)) by (rewrite E; now left).
    apply extract_pages_In in Hpg as [i [t [Hi [Hb _]]]].
    rewrite Forall_forall in Hall.
    apply nth_error_In in Hi. apply Hb, strip_nil_iff. now apply (Hall _ Hi).
Qed.

Lemma chunk_text_some_nonempty fuel text max_chars overlap chunks :
  text <> [] -> chunk_text fuel text max_chars overlap = Some chunks ->
  chunks <> [].
Proof.
  intros Hne E ->. revert E. unfold chunk_text.
  destruct (len text <=? max_chars); [discriminate|].
  rewrite chunk_loop_windows.
  destruct fuel as [|fuel]; simpl; [discriminate|].
  assert (Hn : 0 < len text).
  { destruct text as [|c t]; [congruence|].
    rewrite len_cons. pose proof (len_nonneg t). lia. }
  destruct (Z.ltb_spec 0 (len text)); [|lia].
  destruct (max_chars >=? len text); simpl; [discriminate|].
  destruct (windows fuel text max_chars overlap _); simpl; discriminate.
Qed.

(** The loop over the pages, page by page. *)
Lemma process_pages_records (V : Type) fuel pdf max_chunk_chars :
  forall pages (all_chunks cs : list (Chunk V)),
  process_pages fuel pdf max_chunk_chars pages all_chunks = Some cs <->
  exists css,
    Forall2 (fun pg chunks =>
               chunk_text fuel (pg_text pg) max_chunk_chars default_overlap
               = Some chunks) pages css /\
    cs = all_chunks ++ page_records V pdf pages css.
Proof.
  induction pages as [|pg pages IH]; intros all_chunks cs; simpl.
  - split.
    + intros [= <-]. exists []. split; [constructor|].
      unfold page_records. simpl. now rewrite app_nil_r.
    + intros [css [H ->]]. inversion H; subst.
      unfold page_records. simpl. now rewrite app_nil_r.
  - destruct (chunk_text fuel (pg_text pg) max_chunk_chars default_overlap)
      as [chunks|] eqn:E.
    + rewrite IH. split.
      * intros [css [H ->]]. exists (chunks :: css). split; [now constructor|].
        unfold page_records, records. simpl. now rewrite <- app_assoc.
      * intros [css [H ->]]. inversion H as [|? c2 ? css' Hc Hrest]; subst.
        assert (c2 = chunks) by congruence. subst c2.
        exists css'. split; [assumption|].
        unfold page_records, records. simpl. now rewrite <- app_assoc.
    + split; [discriminate|].
      intros [css [H _]]. inversion H; subst. congruence.
Qed.


Lemma chunk_text_sizes fuel text max_chars overlap chunks :
  0 < max_chars -> text <> [] ->
  chunk_text fuel text max_chars overlap = Some chunks ->
  Forall (fun c => 1 <= len c <= max_chars) chunks.
Proof.
  intros Hm Hne. unfold chunk_text.
  assert (Hn : 0 < len text).
  { destruct text as [|c t]; [congruence|].
    rewrite len_cons. pose proof (len_nonneg t). lia. }
  destruct (Z.leb_spec (len text) max_chars) as [Hshort|Hlong].
  - intros [= <-]. constructor; [lia | constructor].
  - rewrite chunk_loop_windows.
    destruct (windows fuel text max_chars overlap 0) as [ws|] eqn:Hws;
      simpl; [|discriminate].
    intros [= <-].
    apply windows_Trace in Hws. apply Trace_bounds in Hws; try lia.
    apply Forall_map. eapply Forall_impl; [|exact Hws].
    simpl. intros w Hw. rewrite window_text_length; lia.
Qed.

Lemma StronglySorted_app {A} (R : A -> A -> Prop) l1 l2 :
  StronglySorted R l1 -> StronglySorted R l2 ->
  (forall a b, In a l1 -> In b l2 -> R a b) ->
  StronglySorted R (l1 ++ l2).
Proof.
  intros H1 H2 H12. induction H1 as [|x l1 H1 IH Hx]; simpl; [assumption|].
  constructor.
  - apply IH. intros a b Ha Hb. apply H12; [now right | assumption].
  - apply Forall_app. split; [assumption|].
    apply Forall_forall. intros b Hb. apply H12; [now left | assumption].
Qed.

Lemma page_records_cons (V : Type) pdf pg pages chunks css :
  page_records V pdf (pg :: pages) (chunks :: css) =
  records V pdf pg chunks ++ page_records V pdf pages css.
Proof. reflexivity. Qed.

Lemma page_records_pages (V : Type) pdf : forall pages css c,
  In c (page_records V pdf pages css) ->
  exists pg, In pg pages /\ page_number c = pg_number pg.
Proof.
  induction pages as [|pg pages IH]; intros css c; [contradiction|].
  destruct css as [|chunks css]; [contradiction|].
  rewrite page_records_cons. intros Hin. apply in_app_or in Hin as [Hin|Hin].
  - unfold records in Hin. apply in_map_iff in Hin as [t [<- _]].
    exists pg. split; [now left | reflexivity].
  - destruct (IH _ _ Hin) as [pg' [H1 H2]]. exists pg'. split; [now right | assumption].
Qed.

Lemma page_records_sorted (V : Type) pdf : forall pages css,
  StronglySorted (fun a b => pg_number a < pg_number b) pages ->
  StronglySorted (fun a b : Chunk V => page_number a <= page_number b)
                 (page_records V pdf pages css).
Proof.
  induction pages as [|pg pages IH]; intros css Hs; [constructor|].
  destruct css as [|chunks css]; [constructor|].
  rewrite page_records_cons.
  inversion Hs as [|? ? Hrest Hall]; subst.
  apply StronglySorted_app.
  - unfold records. induction chunks as [|t chunks IHc]; simpl; constructor.
    + exact IHc.
    + apply Forall_map, Forall_forall. intros; simpl; lia.
  - now apply IH.
  - intros a b Ha Hb. unfold records in Ha.
    apply in_map_iff in Ha as [t [<- _]]. simpl.
    destruct (page_records_pages _ _ _ _ Hb) as [pg' [Hin ->]].
    rewrite Forall_forall in Hall. specialize (Hall _ Hin). lia.
Qed.

Lemma process_pdf_records_aux (V : Type) fuel raw pdf max_chunk_chars :
  0 < max_chunk_chars ->
  Forall (fun t => forall s, t = Some s -> (length s < fuel)%nat) raw ->
  extract_text_from_pdf raw <> [] ->
  exists css,
    Forall2 (fun pg chunks =>
               chunk_text fuel (pg_text pg) max_chunk_chars default_overlap
               = Some chunks) (extract_text_from_pdf raw) css /\
    process_pdf V fuel raw pdf max_chunk_chars =
      Some (Returns (page_records V pdf (extract_text_from_pdf raw) css)) /\
    StronglySorted (fun a b : Chunk V => page_number a <= page_number b)
      (page_records V pdf (extract_text_from_pdf raw) css) /\
    Forall (fun c : Chunk V =>
              pdf_name c = pdf /\ 1 <= len (text c) <= max_chunk_chars /\
              embedding c = None)
      (page_records V pdf (extract_text_from_pdf raw) css).
Proof.
  intros Hm Hraw Hne. unfold process_pdf.
  pose proof (@extract_pages_texts fuel raw 1 Hraw) as Hpages.
  fold (extract_text_from_pdf raw) in Hpages.
  destruct (@process_pages_nonempty V fuel pdf max_chunk_chars Hm
              (extract_text_from_pdf raw) []) as [cs [Hcs _]];
    [assumption | constructor |].
  pose proof Hcs as Hrec.
  apply process_pages_records in Hrec as [css [Hcss ->]]. simpl in Hcs.
  exists css. split; [assumption|]. split; [|split].
  - destruct (extract_text_from_pdf raw) as [|pg pages] eqn:E; [congruence|].
    now rewrite Hcs.
  - apply page_records_sorted. apply extract_pages_increasing.
  - clear Hcs Hne. revert css Hcss.
    induction Hpages as [|pg pages [Hpg _] _ IH]; intros css Hcss.
    + constructor.
    + inversion Hcss as [|? chunks ? css' Hc Hrest]; subst.
      rewrite page_records_cons. apply Forall_app. split; [|now apply IH].
      unfold records. apply Forall_map.
      eapply Forall_impl; [|eapply chunk_text_sizes; eassumption].
      simpl. auto.
Qed.

(** X4. For [max_chunk_chars >= 1] and a document with text, [process_pdf]
    returns the chunks of the first kept page in order, then those of the
    second, and so on; so the page numbers never decrease along the list,
    every record carries the name of the document, a text of 1 to
    [max_chunk_chars] characters and no vector. *)
Theorem process_pdf_page_order (V : Type) fuel raw pdf max_chunk_chars :
  0 < max_chunk_chars ->
  Forall (fun t => forall s, t = Some s -> (length s < fuel)%nat) raw ->
  extract_text_from_pdf raw <> [] ->
  exists css,
    Forall2 (fun pg chunks =>
               chunk_text fuel (pg_text pg) max_chunk_chars default_overlap
               = Some chunks) (extract_text_from_pdf raw) css /\
    process_pdf V fuel raw pdf max_chunk_chars =
      Some (Returns (page_records V pdf (extract_text_from_pdf raw) css)) /\
    StronglySorted (fun a b : Chunk V => page_number a <= page_number b)
      (page_records V pdf (extract_text_from_pdf raw) css) /\
    Forall (fun c : Chunk V =>
              pdf_name c = pdf /\ 1 <= len (text c) <= max_chunk_chars /\
              embedding c = None)
      (page_records V pdf (extract_text_from_pdf raw) css).
Proof.
  intros Hm Hraw Hne.
  destruct (process_pdf_records_aux V pdf Hm Hraw Hne) as [css [H1 [H2 [H3 H4]]]].
  exists css. auto.
Qed.

Lemma process_pdf_page_order_witness :
  exists css,
    Forall2 (fun pg chunks =>
               chunk_text 12 (pg_text pg) 5 default_overlap = Some chunks)
            (extract_text_from_pdf [None; Some example_text]) css /\
    process_pdf unit 12 [None; Some example_text] "a.pdf" 5 =
      Some (Returns (page_records unit "a.pdf"
                       (extract_text_from_pdf [None; Some example_text]) css)) /\
    StronglySorted (fun a b : Chunk unit => page_number a <= page_number b)
      (page_records unit "a.pdf"
         (extract_text_from_pdf [None; Some example_text]) css) /\
    Forall (fun c : Chunk unit =>
              pdf_name c = "a.pdf"%string /\ 1 <= len (text c) <= 5 /\
              embedding c = None)
      (page_records unit "a.pdf"
         (extract_text_from_pdf [None; Some example_text]) css).
Proof.
  apply (@process_pdf_page_order unit 12 [None; Some example_text] "a.pdf" 5).
  - lia.
  - constructor; [intros s H; discriminate H|].
    constructor; [intros s [= <-]; simpl; lia | constructor].
  - vm_compute. discriminate.
Defined.

(** X5. With [max_chunk_chars = 0] and a document with text, [process_pdf]
    never returns: the window is empty, the split point is [start] and the
    loop of [chunk_text] stays where it is. *)
Theorem process_pdf_zero_never_returns (V : Type) fuel raw pdf :
  extract_text_from_pdf raw <> [] ->
  process_pdf V fuel raw pdf 0 = None.
Proof.
  intros Hne. unfold process_pdf.
  pose proof (extracted_pages_stripped_aux raw) as Hpages.
  destruct (extract_text_from_pdf raw) as [|pg pages]; [congruence|].
  inversion Hpages as [|? ? Hpg _]; subst. simpl.
  rewrite zero_max_chars_never_returns; [reflexivity | assumption |].
  unfold default_overlap. lia.
Qed.

Lemma process_pdf_zero_never_returns_witness :
  process_pdf unit 1000 [Some example_text] "a.pdf" 0 = None.
Proof.
  apply (@process_pdf_zero_never_returns unit 1000 [Some example_text] "a.pdf").
  vm_compute. discriminate.
Defined.

(** ** [chunk_text]: where the chunks are cut *)

Lemma firstn_one_skipn {A} (l : list A) n d :
  nth_error l n = Some d -> firstn 1 (skipn n l) = [d].
Proof.
  revert l. induction n as [|n IH]; intros [|x l]; simpl; try discriminate.
  - now intros [= ->].
  - apply IH.
Qed.

Lemma slice_snoc text s p d :
  0 <= s <= p -> char_at text p = Some d ->
  slice text s (p + 1) = slice text s p ++ [d].
Proof.
  intros Hs Hc. unfold char_at in Hc.
  destruct (Z.ltb_spec p 0); [lia|].
  assert (Hp : p + 1 <= len text).
  { assert (Z.to_nat p < length text)%nat by (apply nth_error_Some; congruence).
    unfold len. lia. }
  rewrite <- (slice_app text (a := s) (b := p) (c := p + 1)) by lia.
  f_equal. rewrite slice_in_range by lia.
  replace (Z.to_nat (p + 1 - p)) with 1%nat by lia.
  now apply firstn_one_skipn.
Qed.

(** The split point is the window end or the position after a delimiter. *)
Lemma split_loop_result ds text start end_ :
  0 <= start < end_ -> end_ <= len text ->
  split_loop ds text start end_ = end_ \/
  exists d, In d ds /\
            char_at text (split_loop ds text start end_ - 1) = Some d.
Proof.
  intros Hs He. induction ds as [|d ds IH]; simpl; [now left|].
  destruct (Z.gtb_spec (rfind text d start end_) start) as [Hgt|Hle].
  - right. exists d. split; [now left|].
    destruct (rfind_spec text d (start := start) (end_ := end_))
      as [[Hr _] | [_ [Hc _]]]; try lia.
    now replace (rfind text d start end_ + 1 - 1) with (rfind text d start end_) by lia.
  - destruct IH as [IH | [d' [Hin Hc]]]; [now left|].
    right. exists d'. split; [now right | assumption].
Qed.

Lemma Trace_cut_points text max_chars overlap start ws :
  0 < max_chars -> 0 <= start ->
  Trace text max_chars overlap start ws ->
  Forall (fun c => len c = max_chars \/ ends_with_delimiter c)
         (removelast (map (window_text text) ws)).
Proof.
  intros Hm Hs T. induction T as [s Hge | s Hlt Hend | s ws Hlt Hend T IH].
  - constructor.
  - constructor.
  - pose proof (@find_split_bounds text s max_chars) as Hsp.
    pose proof (@next_start_advances s
                  (find_split text s (s + max_chars)) overlap) as Hadv.
    destruct ws as [|w ws]; [constructor|].
    change (Forall (fun c => len c = max_chars \/ ends_with_delimiter c)
              (window_text text (s, find_split text s (s + max_chars))
               :: removelast (map (window_text text) (w :: ws)))).
    constructor; [|apply IH; lia].
    unfold window_text. simpl.
    destruct (@split_loop_result delimiters text s (s + max_chars))
      as [E | [d [Hin Hc]]]; try lia.
    + left. fold (find_split text s (s + max_chars)) in E.
      rewrite E. rewrite slice_length; lia.
    + right. fold (find_split text s (s + max_chars)) in Hc.
      exists (slice text s (find_split text s (s + max_chars) - 1)), d.
      split; [|assumption].
      rewrite <- (@slice_snoc text s (find_split text s (s + max_chars) - 1) d)
        by (assumption || lia).
      f_equal. lia.
Qed.

(** X6. Every chunk but the last holds exactly [max_chars] characters or
    ends with one of the four delimiters. *)
Theorem chunks_cut_at_delimiters fuel text max_chars overlap :
  0 < max_chars -> (length text < fuel)%nat ->
  exists chunks,
    chunk_text fuel text max_chars overlap = Some chunks /\
    Forall (fun c => len c = max_chars \/ ends_with_delimiter c)
           (removelast chunks).
Proof.
  intros Hm Hfuel. unfold chunk_text.
  destruct (Z.leb_spec (len text) max_chars) as [Hshort|Hlong].
  - exists [text]. split; [reflexivity | constructor].
  - rewrite chunk_loop_windows.
    destruct (@windows_terminate text max_chars overlap Hm fuel 0) as [ws Hws];
      [lia | unfold len; lia |].
    rewrite Hws. simpl. eexists. split; [reflexivity|].
    apply windows_Trace in Hws.
    apply (Trace_cut_points Hm (Z.le_refl 0) Hws).
Qed.

Lemma chunks_cut_at_delimiters_witness :
  exists chunks,
    chunk_text 12 example_text 5 2 = Some chunks /\
    Forall (fun c => len c = 5 \/ ends_with_delimiter c) (removelast chunks).
Proof.
  apply (@chunks_cut_at_delimiters 12 example_text 5 2).
  - lia.
  - simpl. lia.
Defined.

(** X7. With a non-negative overlap, a text is returned as one chunk exactly
    when it has at most [max_chars] characters; a longer text gives at least
    two chunks. *)
Theorem one_chunk_iff_short fuel text max_chars overlap :
  0 < max_chars -> 0 <= overlap -> (length text <= fuel)%nat ->
  exists chunks,
    chunk_text fuel text max_chars overlap = Some chunks /\
    (length chunks = 1%nat <-> len text <= max_chars) /\
    (max_chars < len text -> (2 <= length chunks)%nat).
Proof.
  intros Hm Hv Hfuel. unfold chunk_text.
  destruct (Z.leb_spec (len text) max_chars) as [Hshort|Hlong].
  - exists [text]. split; [reflexivity|]. split; [tauto | lia].
  - rewrite chunk_loop_windows.
    destruct (@windows_terminate_tight text max_chars overlap Hm Hv fuel 0)
      as [ws Hws]; [lia | unfold len; lia |].
    rewrite Hws. simpl. eexists. split; [reflexivity|].
    apply windows_Trace in Hws. rewrite length_map.
    assert (Hlen : (2 <= length ws)%nat).
    { inversion Hws as [? Hge | ? Hlt Hend | ? ws' Hlt Hend T]; subst; try lia.
      pose proof (@find_split_bounds text 0 max_chars) as Hsp.
      pose proof (@next_start_le 0 (find_split text 0 (0 + max_chars)) overlap Hv).
      destruct (Trace_head T) as [e [rest ->]]; [lia|]. simpl. lia. }
    split; [|intros _; exact Hlen]. split; lia.
Qed.

Lemma one_chunk_iff_short_witness :
  exists chunks,
    chunk_text 11 example_text 5 2 = Some chunks /\
    (length chunks = 1%nat <-> len example_text <= 5) /\
    (5 < len example_text -> (2 <= length chunks)%nat).
Proof.
  apply (@one_chunk_iff_short 11 example_text 5 2).
  - lia.
  - lia.
  - simpl. lia.
Defined.

Lemma Trace_monotone text max_chars overlap start ws :
  0 <= overlap < max_chars -> 0 <= start ->
  Trace text max_chars overlap start ws ->
  forall i s e s' e',
    nth_error ws i = Some (s, e) -> nth_error ws (S i) = Some (s', e') ->
    s < s' /\ s' <= e /\ e <= e'.
Proof.
  intros Hv Hs T. induction T as [s0 Hge | s0 Hlt Hend | s0 ws Hlt Hend T IH];
    intros i s e s' e' Hi Hi'.
  - now destruct i.
  - destruct i as [|[|i]]; discriminate.
  - pose proof (@find_split_bounds text s0 max_chars) as Hsp.
    pose proof (@next_start_advances s0
                  (find_split text s0 (s0 + max_chars)) overlap) as Hadv.
    pose proof (@next_start_le s0
                  (find_split text s0 (s0 + max_chars)) overlap) as Hle.
    destruct i as [|i]; [|simpl in Hi, Hi'; eapply IH; try eassumption; lia].
    simpl in Hi, Hi'. injection Hi as <- <-.
    inversion T as [? Hge' Es | ? Hlt' Hend' Es | ? ws' Hlt' Hend' T' Es];
      subst; simpl in Hi'; try discriminate; injection Hi' as <- <-.
    + lia.
    + pose proof (@next_split_not_before text max_chars overlap s0). lia.
Qed.

(** X8. With [0 <= overlap < max_chars], from one chunk to the next the start
    of the window moves forward, it does not pass the end of the previous
    window, and the end of the window never moves back. *)
Theorem windows_move_forward fuel text max_chars overlap :
  0 <= overlap < max_chars -> (length text <= fuel)%nat ->
  exists ws,
    chunk_text fuel text max_chars overlap = Some (map (window_text text) ws) /\
    forall i s e s' e',
      nth_error ws i = Some (s, e) -> nth_error ws (S i) = Some (s', e') ->
      s < s' /\ s' <= e /\ e <= e'.
Proof.
  intros Hv Hfuel. rewrite chunk_text_windows. unfold segment_windows.
  destruct (Z.leb_spec (len text) max_chars) as [Hshort|Hlong].
  - exists [(0, len text)]. split; [reflexivity|].
    intros [|[|i]] s e s' e'; discriminate.
  - destruct (@windows_terminate_tight text max_chars overlap ltac:(lia) ltac:(lia)
                fuel 0) as [ws Hws]; [lia | unfold len; lia |].
    rewrite Hws. exists ws. split; [reflexivity|].
    apply windows_Trace in Hws.
    apply (Trace_monotone Hv (Z.le_refl 0) Hws).
Qed.

Lemma windows_move_forward_witness :
  exists ws,
    chunk_text 11 example_text 5 2 = Some (map (window_text example_text) ws) /\
    forall i s e s' e',
      nth_error ws i = Some (s, e) -> nth_error ws (S i) = Some (s', e') ->
      s < s' /\ s' <= e /\ e <= e'.
Proof.
  apply (@windows_move_forward 11 example_text 5 2).
  - lia.
  - simpl. lia.
Defined.

(** ** Errors of the similarity and of the search *)

Local Open Scope float_scope.

Lemma cosine_raises_aux vec1 vec2 :
  (calculate_cosine_similarity vec1 vec2 = Raises ValueError <->
   length vec1 <> length vec2 /\
   (np_linalg_norm vec1 =? 0) = false /\ (np_linalg_norm vec2 =? 0) = false)
  /\ (forall e, calculate_cosine_similarity vec1 vec2 = Raises e -> e = ValueError).
Proof.
  unfold calculate_cosine_similarity, np_dot.
  destruct (np_linalg_norm vec1 =? 0) eqn:E1; simpl.
  - split; [|discriminate]. split; [discriminate | intros [_ [H _]]; discriminate].
  - destruct (np_linalg_norm vec2 =? 0) eqn:E2; simpl.
    + split; [|discriminate]. split; [discriminate | intros [_ [_ H]]; discriminate].
    + destruct (Nat.eqb_spec (length vec1) (length vec2)) as [Hl|Hl]; simpl.
      * split; [|discriminate]. split; [discriminate | intros [H _]; contradiction].
      * split; [tauto | now intros e [= <-]].
Qed.


(** The loop of the search: it raises at the first chunk whose similarity
    raises, and otherwise returns the qualifying results in scan order. *)
Lemma scan_chunks_outcome q threshold : forall chunks results,
  (Exists (fun c => exists e, PdfUtils.embedding c = Some e /\
                              calculate_cosine_similarity q e = Raises ValueError)
          chunks /\
   scan_chunks q threshold chunks results = Raises ValueError)
  \/
  (Forall (fun c => forall e, PdfUtils.embedding c = Some e ->
                              exists sim, calculate_cosine_similarity q e = Returns sim)
          chunks /\
   scan_chunks q threshold chunks results =
   Returns (results ++ retained q threshold chunks)).
Proof.
  induction chunks as [|c rest IH]; intros results; simpl.
  - right. split; [constructor | now rewrite app_nil_r].
  - unfold qualifying.
    destruct (PdfUtils.embedding c) as [e|] eqn:Ee.
    + destruct (calculate_cosine_similarity q e) as [sim|x] eqn:Es; simpl.
      * destruct (threshold <=? sim).
        -- destruct (IH (results ++ [mkResult (PdfUtils.pdf_name c)
                                      (PdfUtils.page_number c) (PdfUtils.text c) sim]))
             as [[Hex Hr] | [Hall Hr]].
           ++ left. split; [now apply Exists_cons_tl | assumption].
           ++ right. split.
              ** constructor; [|assumption].
                 intros e0 He0. rewrite Ee in He0. injection He0 as <-. eauto.
              ** rewrite Hr, <- app_assoc. reflexivity.
        -- destruct (IH results) as [[Hex Hr] | [Hall Hr]].
           ++ left. split; [now apply Exists_cons_tl | assumption].
           ++ right. split; [|assumption].
              constructor; [|assumption].
                 intros e0 He0. rewrite Ee in He0. injection He0 as <-. eauto.
      * pose proof (proj2 (cosine_raises_aux q e) _ Es) as ->.
        left. split; [|reflexivity].
        apply Exists_cons_hd. eauto.
    + destruct (IH results) as [[Hex Hr] | [Hall Hr]].
      * left. split; [now apply Exists_cons_tl | assumption].
      * right. split; [|assumption].
        constructor; [|assumption].
        intros e0 He0. rewrite Ee in He0. discriminate.
Qed.

(** X10. [search_similar_chunks] raises exactly when some chunk has a vector
    of another dimension than the query vector while both norms are
    non-zero, and then it is a [ValueError]; [top_k] and the threshold play
    no part in it. *)
Theorem search_raises_iff create_embedding query chunks top_k threshold :
  (search_similar_chunks create_embedding query chunks top_k threshold
     = Raises ValueError <->
   Exists (fun c => exists e,
             PdfUtils.embedding c = Some e /\
             length (create_embedding query) <> length e /\
             (np_linalg_norm (create_embedding query) =? 0) = false /\
             (np_linalg_norm e =? 0) = false) chunks)
  /\ (forall e,
        search_similar_chunks create_embedding query chunks top_k threshold
          = Raises e -> e = ValueError).
Proof.
  unfold search_similar_chunks.
  destruct (scan_chunks_outcome (create_embedding query) threshold chunks [])
    as [[Hex Hr] | [Hall Hr]]; rewrite Hr; simpl.
  - split; [|now intros e [= <-]].
    split; [intros _ | reflexivity].
    apply Exists_exists in Hex as [c [Hin [e [He Hs]]]].
    apply Exists_exists. exists c. split; [assumption|]. exists e.
    split; [assumption|]. now apply cosine_raises_aux.
  - split; [|discriminate]. split; [discriminate|].
    intros Hex. exfalso.
    apply Exists_exists in Hex as [c [Hin [e [He Hm]]]].
    rewrite Forall_forall in Hall.
    destruct (Hall _ Hin _ He) as [sim Hs].
    apply cosine_raises_aux in Hm. congruence.
Qed.

(** ** The search outside its usual inputs *)

Lemma search_returns_slice create_embedding query chunks top_k threshold :
  well_dimensioned (create_embedding query) chunks ->
  search_similar_chunks create_embedding query chunks top_k threshold =
  Returns (slice (sort_desc (retained (create_embedding query) threshold chunks))
                 0 top_k).
Proof.
  intros Hdim. unfold search_similar_chunks.
  now rewrite scan_chunks_retained by assumption.
Qed.

Lemma In_slice {A} (x : A) l lo hi : In x (slice l lo hi) -> In x l.
Proof.
  unfold slice. intros H. apply In_firstn in H.
  rewrite <- (firstn_skipn (Z.to_nat (adjust (len l) lo)) l).
  apply in_or_app. now right.
Qed.

Lemma slice_nil {A} lo hi : slice (@nil A) lo hi = [].
Proof. unfold slice. now rewrite skipn_nil, firstn_nil. Qed.

(** X11. A [top_k] of zero gives no result and a negative [top_k] gives all
    the sorted qualifying results but the last [-top_k]: the slice
    [results[:top_k]] counts a negative bound from the end. *)
Theorem search_nonpositive_top_k create_embedding query chunks top_k threshold :
  (top_k <= 0)%Z ->
  well_dimensioned (create_embedding query) chunks ->
  search_similar_chunks create_embedding query chunks top_k threshold =
  Returns
    (if (top_k =? 0)%Z then []
     else firstn
            (Z.to_nat
               (len (sort_desc (retained (create_embedding query) threshold chunks))
                + top_k))
            (sort_desc (retained (create_embedding query) threshold chunks))).
Proof.
  intros Hk Hdim. rewrite search_returns_slice by assumption. f_equal.
  set (sorted := sort_desc (retained (create_embedding query) threshold chunks)).
  pose proof (len_nonneg sorted) as Hn.
  unfold slice. rewrite (adjust_id (n := len sorted) (i := 0%Z)) by lia.
  simpl skipn. unfold adjust.
  destruct (Z.eqb_spec top_k 0) as [->|Hne].
  - simpl. destruct (len sorted); reflexivity.
  - destruct (Z.ltb_spec top_k 0); [|lia].
    f_equal. lia.
Qed.

Lemma search_nonpositive_top_k_witness :
  search_similar_chunks scenario_embedding [] scenario_chunks (-1) 0.5 =
  Returns
    (if (-1 =? 0)%Z then []
     else firstn
            (Z.to_nat
               (len (sort_desc (retained (scenario_embedding []) 0.5 scenario_chunks))
                + -1))
            (sort_desc (retained (scenario_embedding []) 0.5 scenario_chunks))).
Proof.
  apply (@search_nonpositive_top_k scenario_embedding [] scenario_chunks (-1) 0.5).
  - lia.
  - exact scenario_well_dimensioned.
Defined.

Lemma SFcompare_defined_refl x y c :
  SFcompare x y = Some c ->
  SFcompare x x = Some Eq /\ SFcompare y y = Some Eq.
Proof.
  destruct x as [sx|sx| |sx mx ex], y as [sy|sy| |sy my ey];
    try discriminate; intros _;
    (split; [try apply SFcompare_refl_finite; try (destruct sx; reflexivity)
            | try apply SFcompare_refl_finite; try (destruct sy; reflexivity)]).
Qed.

Lemma leb_numbers t x :
  (t <=? x) = true -> (t =? t) = true /\ (x =? x) = true.
Proof.
  rewrite leb_spec, !eqb_spec. unfold SFleb, SFeqb.
  destruct (SFcompare (Prim2SF t) (Prim2SF x)) as [c|] eqn:E; [|discriminate].
  intros _. destruct (SFcompare_defined_refl _ _ E) as [-> ->]. auto.
Qed.

(** X12. No returned similarity is a NaN: a chunk whose similarity is not a
    number fails the comparison with the threshold and is left out, and a
    threshold that is not a number leaves every chunk out. *)
Theorem search_results_are_numbers create_embedding query chunks top_k threshold :
  well_dimensioned (create_embedding query) chunks ->
  exists results,
    search_similar_chunks create_embedding query chunks top_k threshold
      = Returns results /\
    Forall (fun r => (similarity r =? similarity r) = true) results /\
    ((threshold =? threshold) = false -> results = []).
Proof.
  intros Hdim. rewrite search_returns_slice by assumption.
  set (q := create_embedding query).
  pose proof (retained_above q threshold chunks) as Habove.
  eexists. split; [reflexivity|]. split.
  - apply Forall_forall. intros r Hin. apply In_slice in Hin.
    apply (Permutation_in _ (sort_desc_perm _)) in Hin.
    rewrite Forall_forall in Habove.
    destruct (leb_numbers (Habove _ Hin)) as [_ Hr]. exact Hr.
  - intros Hnan.
    destruct (retained q threshold chunks) as [|r rest] eqn:E; [apply slice_nil|].
    inversion Habove as [|? ? Hr _]; subst.
    apply leb_numbers in Hr as [Ht _]. congruence.
Qed.

Lemma search_results_are_numbers_witness :
  exists results,
    search_similar_chunks scenario_embedding [] scenario_chunks 2 0.5
      = Returns results /\
    Forall (fun r => (similarity r =? similarity r) = true) results /\
    ((0.5 =? 0.5) = false -> results = []).
Proof.
  apply (@search_results_are_numbers scenario_embedding [] scenario_chunks 2 0.5).
  exact scenario_well_dimensioned.
Defined.

Lemma retained_unset q threshold chunks :
  Forall (fun c : chunk => PdfUtils.embedding c = None) chunks ->
  retained q threshold chunks = [].
Proof.
  induction 1 as [|c rest Hc _ IH]; simpl; [reflexivity|].
  unfold qualifying. now rewrite Hc.
Qed.

(** X13. On a collection in which no chunk has a vector yet, as [process_pdf]
    returns it, the search gives the empty list for every query, [top_k] and
    threshold, and raises nothing. *)
Theorem search_before_embedding create_embedding query chunks top_k threshold :
  Forall (fun c : chunk => PdfUtils.embedding c = None) chunks ->
  search_similar_chunks create_embedding query chunks top_k threshold = Returns [].
Proof.
  intros Hnone. rewrite search_returns_slice.
  - rewrite retained_unset by assumption. simpl. now rewrite slice_nil.
  - apply Forall_forall. intros c Hin e He.
    rewrite Forall_forall in Hnone. pose proof (Hnone _ Hin) as Hc.
    unfold vector in Hc. congruence.
Qed.

Lemma search_before_embedding_witness :
  search_similar_chunks scenario_embedding []
    [PdfUtils.mkChunk "a.pdf" 1%Z [97%N] None] 5 0x1.3333333333333p-2 = Returns [].
Proof.
  apply (@search_before_embedding scenario_embedding []
           [PdfUtils.mkChunk "a.pdf" 1%Z [97%N] None] 5%Z 0x1.3333333333333p-2).
  repeat constructor.
Defined.

(** ** [add_embeddings_to_chunks] *)

Lemma set_embeddings_fields : forall (chunks : list chunk) embeddings,
  length (set_embeddings chunks embeddings) = length chunks /\
  map (@PdfUtils.pdf_name vector) (set_embeddings chunks embeddings)
    = map (@PdfUtils.pdf_name vector) chunks /\
  map (@PdfUtils.page_number vector) (set_embeddings chunks embeddings)
    = map (@PdfUtils.page_number vector) chunks /\
  map (@PdfUtils.text vector) (set_embeddings chunks embeddings)
    = map (@PdfUtils.text vector) chunks.
Proof.
  induction chunks as [|c chunks IH]; intros embeddings; [now destruct embeddings|].
  destruct embeddings as [|e embeddings]; [auto|].
  destruct (IH embeddings) as [H1 [H2 [H3 H4]]]. simpl.
  now rewrite H1, H2, H3, H4.
Qed.

Lemma set_embeddings_vectors : forall (chunks : list chunk) embeddings,
  map (@PdfUtils.embedding vector) (set_embeddings chunks embeddings) =
  map Some (firstn (length chunks) embeddings) ++
  skipn (length embeddings) (map (@PdfUtils.embedding vector) chunks).
Proof.
  induction chunks as [|c chunks IH]; intros embeddings.
  - simpl. now rewrite skipn_nil.
  - destruct embeddings as [|e embeddings]; [reflexivity|].
    simpl. now rewrite IH.
Qed.

(** X14. When the model returns vectors for the texts of the chunks, in
    order, [add_embeddings_to_chunks] returns as many chunks as it got, with
    the same names, pages and texts in the same order; a chunk gets the
    vector at its position, and when the model returns fewer vectors than
    there are chunks the chunks after the last vector keep what they had. *)
Theorem add_embeddings_sets_vectors create_embeddings_batch chunks embeddings :
  create_embeddings_batch (map (@PdfUtils.text vector) chunks)
    = Returns embeddings ->
  exists chunks',
    add_embeddings_to_chunks create_embeddings_batch chunks = Returns chunks' /\
    length chunks' = length chunks /\
    map (@PdfUtils.pdf_name vector) chunks' = map (@PdfUtils.pdf_name vector) chunks /\
    map (@PdfUtils.page_number vector) chunks'
      = map (@PdfUtils.page_number vector) chunks /\
    map (@PdfUtils.text vector) chunks' = map (@PdfUtils.text vector) chunks /\
    map (@PdfUtils.embedding vector) chunks' =
      map Some (firstn (length chunks) embeddings) ++
      skipn (length embeddings) (map (@PdfUtils.embedding vector) chunks).
Proof.
  intros Hbatch. unfold add_embeddings_to_chunks. rewrite Hbatch. simpl.
  eexists. split; [reflexivity|].
  destruct (set_embeddings_fields chunks embeddings) as [H1 [H2 [H3 H4]]].
  repeat split; try assumption. apply set_embeddings_vectors.
Qed.

Lemma add_embeddings_sets_vectors_witness :
  exists chunks',
    add_embeddings_to_chunks
      (fun texts => Returns (map (fun _ => [1; 0]) texts)) scenario_chunks
      = Returns chunks' /\
    length chunks' = length scenario_chunks /\
    map (@PdfUtils.pdf_name vector) chunks'
      = map (@PdfUtils.pdf_name vector) scenario_chunks /\
    map (@PdfUtils.page_number vector) chunks'
      = map (@PdfUtils.page_number vector) scenario_chunks /\
    map (@PdfUtils.text vector) chunks'
      = map (@PdfUtils.text vector) scenario_chunks /\
    map (@PdfUtils.embedding vector) chunks' =
      map Some (firstn (length scenario_chunks)
                  (map (fun _ => [1; 0]) (map (@PdfUtils.text vector) scenario_chunks))) ++
      skipn (length (map (fun _ : str => [1; 0])
                       (map (@PdfUtils.text vector) scenario_chunks)))
            (map (@PdfUtils.embedding vector) scenario_chunks).
Proof.
  apply (@add_embeddings_sets_vectors
           (fun texts => Returns (map (fun _ => [1; 0]) texts)) scenario_chunks).
  reflexivity.
Defined.

(** With one vector per chunk, all of the dimension of the query vector,
    the collection is well-dimensioned and no vector is left unset. *)
Lemma set_embeddings_well_dimensioned (q : vector) :
  forall (chunks : list chunk) embeddings,
  length embeddings = length chunks ->
  Forall (fun e : vector => length e = length q) embeddings ->
  well_dimensioned q (set_embeddings chunks embeddings) /\
  Forall (fun c : chunk => PdfUtils.embedding c <> None)
         (set_embeddings chunks embeddings).
Proof.
  induction chunks as [|c chunks IH]; intros embeddings Hlen Hdim.
  - destruct embeddings; split; constructor.
  - destruct embeddings as [|e embeddings]; [discriminate|].
    inversion Hdim as [|? ? He Hrest]; subst.
    destruct (IH embeddings) as [H1 H2]; [simpl in Hlen; lia | assumption |].
    simpl. split; constructor; try assumption.
    + simpl. now intros e0 [= <-].
    + simpl. discriminate.
Qed.

(** X15. Embedding and search compose: when the model returns one vector per
    chunk, each of the dimension of the query vector, the collection that
    [add_embeddings_to_chunks] returns has every vector set, and
    [search_similar_chunks] on it returns at most [top_k] results, each the
    text of one of the chunks handed in; no [ValueError] can occur. *)
Theorem embedded_collection_searchable
    create_embedding create_embeddings_batch query chunks embeddings top_k threshold :
  create_embeddings_batch (map (@PdfUtils.text vector) chunks)
    = Returns embeddings ->
  length embeddings = length chunks ->
  Forall (fun e : vector => length e = length (create_embedding query)) embeddings ->
  (1 <= top_k)%Z ->
  exists chunks' results,
    add_embeddings_to_chunks create_embeddings_batch chunks = Returns chunks' /\
    Forall (fun c : chunk => PdfUtils.embedding c <> None) chunks' /\
    search_similar_chunks create_embedding query chunks' top_k threshold
      = Returns results /\
    (len results <= top_k)%Z /\
    Forall (fun r => In (res_text r) (map (@PdfUtils.text vector) chunks)) results.
Proof.
  intros Hbatch Hlen Hdim Hk.
  unfold add_embeddings_to_chunks. rewrite Hbatch. simpl.
  destruct (set_embeddings_well_dimensioned (create_embedding query)
              chunks Hlen Hdim) as [Hwd Hset].
  exists (set_embeddings chunks embeddings).
  eexists. split; [reflexivity|]. split; [assumption|].
  rewrite search_returns by (assumption || lia).
  split; [reflexivity|]. split.
  - unfold len. rewrite length_firstn. lia.
  - apply Forall_forall. intros r Hin. apply In_firstn in Hin.
    apply (Permutation_in _ (sort_desc_perm _)) in Hin.
    destruct (retained_sound _ _ _ _ Hin) as [c [e [Hc [_ [_ ->]]]]].
    simpl.
    destruct (set_embeddings_fields chunks embeddings) as [_ [_ [_ <-]]].
    now apply in_map.
Qed.

Lemma embedded_collection_searchable_witness :
  exists chunks' results,
    add_embeddings_to_chunks
      (fun texts => Returns (map (fun _ => [1; 0]) texts)) scenario_chunks
      = Returns chunks' /\
    Forall (fun c : chunk => PdfUtils.embedding c <> None) chunks' /\
    search_similar_chunks scenario_embedding [] chunks' 3 0.5 = Returns results /\
    (len results <= 3)%Z /\
    Forall (fun r => In (res_text r) (map (@PdfUtils.text vector) scenario_chunks))
           results.
Proof.
  apply (@embedded_collection_searchable scenario_embedding
           (fun texts => Returns (map (fun _ => [1; 0]) texts)) []
           scenario_chunks
           (map (fun _ => [1; 0]) (map (@PdfUtils.text vector) scenario_chunks))
           3%Z 0.5).
  - reflexivity.
  - reflexivity.
  - repeat constructor.
  - lia.
Defined.

(** ** The model cache *)

Section CacheFacts.

Variable SentenceTransformer : Type.
Variable load : string -> SentenceTransformer.
Variable encode : SentenceTransformer -> str -> vector.
Variable encode_batch : SentenceTransformer -> list str -> list vector.

Lemma get_model_from_empty out :
  ModelCache.get_embedding_model load (ModelCache.mkWorld None out) =
  (load ModelCache.MODEL_NAME,
   ModelCache.mkWorld (Some (load ModelCache.MODEL_NAME))
     (out ++ [ModelCache.loading_message; ModelCache.loaded_message])).
Proof.
  unfold ModelCache.get_embedding_model, ModelCache.print. simpl.
  now rewrite <- app_assoc.
Qed.

Lemma get_model_loaded out w :
  cache_loaded load out w -> ModelCache.get_embedding_model load w = (load ModelCache.MODEL_NAME, w).
Proof.
  intros [Hc _]. unfold ModelCache.get_embedding_model. now rewrite Hc.
Qed.

Lemma after_call_loaded out c w :
  cache_loaded load out w ->
  ModelCache.after_call load encode encode_batch c w = w.
Proof.
  intros Hw. destruct c;
    unfold ModelCache.after_call, ModelCache.create_embedding,
           ModelCache.create_embeddings_batch;
    now rewrite (get_model_loaded Hw).
Qed.

Lemma after_call_empty out c :
  cache_loaded load out (ModelCache.after_call load encode encode_batch c
                (ModelCache.mkWorld None out)).
Proof.
  destruct c;
    unfold ModelCache.after_call, ModelCache.create_embedding,
           ModelCache.create_embeddings_batch;
    rewrite get_model_from_empty; simpl; split; reflexivity.
Qed.

Lemma after_calls_loaded out calls : forall w,
  cache_loaded load out w ->
  ModelCache.after_calls load encode encode_batch calls w = w.
Proof.
  induction calls as [|c calls IH]; intros w Hw; [reflexivity|].
  unfold ModelCache.after_calls in *. cbn [fold_left].
  rewrite (after_call_loaded c Hw). now apply IH.
Qed.

(** X16. Starting with an empty cache, after any sequence of one or more
    calls of [get_embedding_model], [create_embedding] and
    [create_embeddings_batch] the cache holds the model and the two lines of
    the loading were printed exactly once: the model is built by the first
    call and by no other. *)
Theorem model_loaded_once c calls out :
  let w := ModelCache.after_calls load encode encode_batch (c :: calls)
             (ModelCache.mkWorld None out) in
  ModelCache._model_cache w = Some (load ModelCache.MODEL_NAME) /\
  ModelCache.stdout w =
    out ++ [ModelCache.loading_message; ModelCache.loaded_message].
Proof.
  cbv zeta. unfold ModelCache.after_calls. cbn [fold_left].
  pose proof (after_call_empty out c) as Hw.
  fold (ModelCache.after_calls load encode encode_batch calls
          (ModelCache.after_call load encode encode_batch c
             (ModelCache.mkWorld None out))).
  rewrite (after_calls_loaded calls Hw). exact Hw.
Qed.

(** X17. Whatever calls came before, [create_embedding] returns what the
    model named [MODEL_NAME] encodes for the text, and
    [create_embeddings_batch] what it encodes for the list: the cache changes
    when the model is built, not what is computed. *)
Theorem embedding_independent_of_cache calls out text texts :
  let w := ModelCache.after_calls load encode encode_batch calls
             (ModelCache.mkWorld None out) in
  fst (ModelCache.create_embedding load encode text w)
    = encode (load ModelCache.MODEL_NAME) text /\
  fst (ModelCache.create_embeddings_batch load encode_batch texts w)
    = encode_batch (load ModelCache.MODEL_NAME) texts.
Proof.
  cbv zeta. unfold ModelCache.create_embedding, ModelCache.create_embeddings_batch.
  destruct calls as [|c calls].
  - unfold ModelCache.after_calls. cbn [fold_left].
    rewrite get_model_from_empty. split; reflexivity.
  - pose proof (after_call_empty out c) as Hw.
    unfold ModelCache.after_calls. cbn [fold_left].
    fold (ModelCache.after_calls load encode encode_batch calls
            (ModelCache.after_call load encode encode_batch c
               (ModelCache.mkWorld None out))).
    rewrite (after_calls_loaded calls Hw).
    rewrite (get_model_loaded Hw). split; reflexivity.
Qed.

End CacheFacts.

(** ** [create_index] *)

Local Open Scope Z_scope.

Lemma no_text_forall raw :
  forallb no_text raw = true <->
  Forall (fun t => forall s, t = Some s -> blank s = true) raw.
Proof.
  rewrite forallb_forall, Forall_forall.
  split; intros H t Hin.
  - intros s ->. exact (H _ Hin).
  - destruct t as [s|]; simpl; [now apply (H _ Hin) | reflexivity].
Qed.

Lemma has_text_extract raw name :
  has_text (App.mkFile name (Some raw)) = true <->
  extract_text_from_pdf raw <> [].
Proof.
  unfold has_text. simpl. rewrite extract_nil_iff, <- no_text_forall.
  destruct (forallb no_text raw); simpl; split; congruence.
Qed.

(** What [process_pdf] does with an uploaded file. *)
Lemma process_upload_outcome fuel f :
  (forall raw, App.pages f = Some raw ->
     Forall (fun t => forall s, t = Some s -> (length s < fuel)%nat) raw) ->
  (has_text f = true /\
   exists cs, App.process_upload fuel f = Some (Returns cs) /\ cs <> [] /\
              Forall (fun c : chunk =>
                        pdf_name c = App.name f /\
                        1 <= len (text c) <= App.default_max_chunk_chars /\
                        embedding c = None) cs)
  \/
  (has_text f = false /\
   App.process_upload fuel f = Some (Raises (failure f))).
Proof.
  intros Hfuel. destruct f as [name [raw|]]; unfold App.process_upload, failure; simpl.
  - destruct (has_text (App.mkFile name (Some raw))) eqn:E.
    + left. split; [reflexivity|].
      apply has_text_extract in E.
      assert (Hm : 0 < App.default_max_chunk_chars) by (unfold App.default_max_chunk_chars; lia).
      destruct (process_pdf_records_aux vector name Hm (Hfuel _ eq_refl) E)
        as [css [Hcss [Hp [_ Hall]]]].
      eexists. split; [exact Hp|]. split; [|exact Hall].
      pose proof (extracted_pages_stripped_aux raw) as Hpages.
      destruct (extract_text_from_pdf raw) as [|pg pages]; [congruence|].
      inversion Hcss as [|? chunks ? css' Hc _]; subst.
      inversion Hpages as [|? ? Hpg _]; subst.
      apply chunk_text_some_nonempty in Hc; [|exact Hpg].
      rewrite page_records_cons. unfold records.
      destruct chunks; [congruence | discriminate].
    + right. split; [reflexivity|].
      assert (Hnil : extract_text_from_pdf raw = []).
      { destruct (extract_text_from_pdf raw) eqn:Ex; [reflexivity|].
        assert (has_text (App.mkFile name (Some raw)) = true)
          by (apply has_text_extract; congruence).
        congruence. }
      unfold process_pdf. now rewrite Hnil.
  - right. split; reflexivity.
Qed.

(** The loop over the files: the files with text give their chunks and
    their names, the others a warning each. *)
Lemma index_files_outcome fuel : forall files all_chunks file_names log,
  enough_fuel fuel files ->
  exists cs,
    App.index_files fuel files all_chunks file_names log =
      Some (all_chunks ++ cs, file_names ++ indexed_names files,
            log ++ warnings files) /\
    (cs = [] <-> indexed_names files = []) /\
    Forall (fun c : chunk =>
              In (pdf_name c) (indexed_names files) /\
              1 <= len (text c) <= App.default_max_chunk_chars /\
              embedding c = None) cs.
Proof.
  induction files as [|f files IH]; intros all_chunks file_names log Hfuel.
  - exists []. simpl. unfold indexed_names, warnings. simpl.
    rewrite !app_nil_r. repeat split; auto.
  - inversion Hfuel as [|? ? Hf Hrest]; subst. simpl.
    unfold indexed_names, warnings. simpl.
    destruct (@process_upload_outcome fuel f Hf) as [[Ht [cs [Hp [Hne Hcs]]]] | [Ht Hp]];
      rewrite Hp, Ht; simpl.
    + destruct (IH (all_chunks ++ cs) (file_names ++ [App.name f]) log Hrest)
        as [cs' [Hi [_ Hcs']]].
      exists (cs ++ cs'). rewrite Hi, <- !app_assoc. simpl.
      split; [reflexivity|]. split.
      * split; [|discriminate]. intros E. destruct cs; [congruence | discriminate].
      * apply Forall_app. split.
        -- eapply Forall_impl; [|exact Hcs]. simpl.
           intros c [H1 [H2 H3]]. rewrite H1. auto.
        -- eapply Forall_impl; [|exact Hcs']. simpl.
           intros c [H1 H2]. split; [now right | assumption].
    + destruct (IH all_chunks file_names
                  (log ++ [App.FileFailed (App.name f) (failure f)]) Hrest)
        as [cs' [Hi Hcs']].
      exists cs'. rewrite Hi, <- !app_assoc. simpl.
      split; [reflexivity | exact Hcs'].
Qed.

Lemma set_embeddings_indexed names : forall (cs : list chunk) embeddings,
  Forall (fun c : chunk =>
            In (pdf_name c) names /\
            1 <= len (text c) <= App.default_max_chunk_chars /\
            embedding c = None) cs ->
  Forall (indexed_chunk names) (set_embeddings cs embeddings).
Proof.
  induction cs as [|c cs IH]; intros embeddings Hcs.
  - destruct embeddings; constructor.
  - inversion Hcs as [|? ? [H1 [H2 _]] Hrest]; subst.
    assert (Htail : Forall (indexed_chunk names) cs).
    { eapply Forall_impl; [|exact Hrest]. intros x [Hx1 [Hx2 _]]. now split. }
    destruct embeddings as [|e embeddings]; simpl.
    + constructor; [now split | assumption].
    + constructor; [now split | now apply IH].
Qed.

(** The four ways in which [create_index] ends. *)
Lemma create_index_cases create_embeddings_batch fuel files st :
  enough_fuel fuel files ->
  (files = [] /\
   App.create_index create_embeddings_batch fuel files st
     = Some (st, [App.NoFileSelected]))
  \/
  (files <> [] /\ indexed_names files = [] /\
   App.create_index create_embeddings_batch fuel files st
     = Some (st, warnings files ++ [App.NoTextExtracted]))
  \/
  (indexed_names files <> [] /\
   exists e,
     App.create_index create_embeddings_batch fuel files st
       = Some (st, warnings files ++ [App.IndexFailed e]))
  \/
  (indexed_names files <> [] /\
   exists all_chunks embeddings,
     all_chunks <> [] /\
     Forall (fun c : chunk =>
               In (pdf_name c) (indexed_names files) /\
               1 <= len (text c) <= App.default_max_chunk_chars /\
               embedding c = None) all_chunks /\
     create_embeddings_batch (map (@PdfUtils.text vector) all_chunks)
       = Returns embeddings /\
     App.create_index create_embeddings_batch fuel files st
       = Some (App.mkState (Some (set_embeddings all_chunks embeddings))
                 (Some true) (Some (indexed_names files)),
               warnings files
               ++ [App.IndexCreated (len (set_embeddings all_chunks embeddings))])).
Proof.
  intros Hfuel. unfold App.create_index.
  destruct files as [|f files]; [left; split; reflexivity|].
  right.
  destruct (index_files_outcome [] [] [] Hfuel) as [cs [Hi [Hnil Hcs]]].
  rewrite Hi. simpl app.
  destruct cs as [|c cs].
  - left. split; [discriminate|]. split; [now apply Hnil | reflexivity].
  - right.
    assert (Hnames : indexed_names (f :: files) <> []).
    { intros E. apply Hnil in E. discriminate. }
    unfold add_embeddings_to_chunks.
    destruct (create_embeddings_batch (map (@PdfUtils.text vector) (c :: cs)))
      as [embeddings|e] eqn:Eb.
    + right. split; [assumption|].
      exists (c :: cs), embeddings.
      split; [discriminate|]. split; [assumption|]. split; [assumption|].
      reflexivity.
    + left. split; [assumption|]. exists e. reflexivity.
Qed.



(** X19. [create_index] replaces the index as a whole or leaves the session
    state as it was. A new index is marked as created, holds at least one
    chunk, lists the files with text in upload order, and each of its chunks
    has 1 to 800 characters and comes from one of these files: nothing of
    the index before it is kept. *)
Theorem create_index_all_or_nothing create_embeddings_batch fuel files st :
  enough_fuel fuel files ->
  exists st' log,
    App.create_index create_embeddings_batch fuel files st = Some (st', log) /\
    (st' = st \/
     exists cs,
       st' = App.mkState (Some cs) (Some true) (Some (indexed_names files)) /\
       cs <> [] /\ indexed_names files <> [] /\
       Forall (indexed_chunk (indexed_names files)) cs).
Proof.
  intros Hfuel.
  destruct (create_index_cases create_embeddings_batch st Hfuel)
    as [[_ Hc] | [[_ [_ Hc]] | [[_ [e Hc]] |
        [Hnames [all_chunks [embeddings [Hne [Hall [_ Hc]]]]]]]]];
    rewrite Hc; eexists; eexists; (split; [reflexivity|]); auto.
  right. eexists. split; [reflexivity|]. split; [|split; [assumption|]].
  - destruct all_chunks as [|c cs]; [congruence|].
    destruct embeddings; discriminate.
  - now apply set_embeddings_indexed.
Qed.

Lemma create_index_all_or_nothing_witness :
  exists st' log,
    App.create_index (fun texts => Returns (map (fun _ => [1%float]) texts)) 12
      [App.mkFile "a.pdf" (Some [Some example_text])] App.no_keys
      = Some (st', log) /\
    (st' = App.no_keys \/
     exists cs,
       st' = App.mkState (Some cs) (Some true)
               (Some (indexed_names [App.mkFile "a.pdf" (Some [Some example_text])])) /\
       cs <> [] /\
       indexed_names [App.mkFile "a.pdf" (Some [Some example_text])] <> [] /\
       Forall (indexed_chunk
                 (indexed_names [App.mkFile "a.pdf" (Some [Some example_text])])) cs).
Proof.
  apply (@create_index_all_or_nothing
           (fun texts => Returns (map (fun _ => [1%float]) texts)) 12
           [App.mkFile "a.pdf" (Some [Some example_text])] App.no_keys).
  constructor; [|constructor].
  intros raw [= <-]. constructor; [|constructor].
  intros s [= <-]. simpl. lia.
Defined.

(** ** The session state *)







(** ** The search area *)





